(** * Camera-framing geometry of the globe widget

    A shallow embedding of the geometry in [GlobeScene] (the component that
    frames a list of points on the globe and interpolates the camera
    altitude with the scroll progress) and of [haversineKm] from
    [src/lib/geo.ts].  After it come the code around the geometry: the
    effects that move the camera, the scroll controller of the home page,
    the texts and the progress bar of the now-playing panel, the choice of
    the album image, and the admin session with its login route.

    Numbers.  A JavaScript [number] is modelled as a real number, so every
    statement below is a statement of exact real arithmetic; rounding of
    IEEE-754 doubles is outside the model.  In [GlobeScene] the constant
    [Math.PI] is the real number PI; where a result turns on [Math.PI]
    being a double below PI (two antipodal points, whose unit vectors
    cancel for PI only), the module [MathPI] has the same functions with
    the value of the double.  The operations of the source
    that leave the finite numbers on part of their domain (they return
    [NaN] or an infinity there) are partial here: [Math_sqrt] of a negative
    number, [Math_asin] outside [-1, 1] and a division by zero return
    [None], and [None] is propagated by [bind].  A result [Some v] therefore
    says that the source computes [v] and that no such operation was applied
    outside its domain on the way. *)

From Stdlib Require Import Reals Lra Lia Psatz List String ZArith Permutation.
From Stdlib Require Import Zfloor.
From Stdlib Require Import DecimalString Sorted Ascii.
Import ListNotations.

Local Open Scope R_scope.

(** ** JavaScript numbers and the [Math] functions used by the source *)

Module JsNum.

Abbreviation number := R (only parsing).

Definition ret {A : Type} (a : A) : option A := Some a.

Definition bind {A B : Type} (m : option A) (f : A -> option B) : option B :=
  match m with
  | Some a => f a
  | None => None
  end.

Notation "x <- m ;; k" := (bind m (fun x => k))
  (at level 61, m at next level, right associativity).

(** [Math.sqrt]: [NaN] on the negative numbers. *)
Definition Math_sqrt (v : number) : option number :=
  if Rle_dec 0 v then Some (sqrt v) else None.

(** [Math.asin]: [NaN] outside [-1, 1]. *)
Definition Math_asin (v : number) : option number :=
  if Rle_dec (-1) v then
    if Rle_dec v 1 then Some (asin v) else None
  else None.

(** [a / b] with a divisor that is not a literal: not finite when [b] is
    zero. *)
Definition div (a b : number) : option number :=
  if Req_dec_T b 0 then None else Some (a / b).

(** [Math.atan2(y, x)], the angle of the vector [(x, y)] in (-PI, PI]. *)
Definition Math_atan2 (y x : number) : number :=
  if Rlt_dec 0 x then atan (y / x)
  else if Rlt_dec x 0 then
    if Rle_dec 0 y then atan (y / x) + PI else atan (y / x) - PI
  else
    if Rlt_dec 0 y then PI / 2
    else if Rlt_dec y 0 then - (PI / 2)
    else 0.

(** Rounding towards zero, as the quotient of [%] is rounded. *)
Definition trunc (v : number) : Z :=
  if Rle_dec 0 v then Zfloor v else Zceil v.

(** [a % b]: the remainder has the sign of the dividend. *)
Definition rem (a b : number) : number :=
  a - b * IZR (trunc (a / b)).

(** [Array.prototype.reduce] with a callback that can leave the finite
    numbers. *)
Fixpoint reduceM {A B : Type} (f : B -> A -> option B) (l : list A) (acc : B)
  : option B :=
  match l with
  | [] => ret acc
  | a :: l' => b <- f acc a ;; reduceM f l' b
  end.

End JsNum.

Import JsNum.

(** ** The geometry of [GlobeScene] *)

Module GlobeScene.

(** [{ lat: number; lng: number }] *)
Record LatLng : Type := mkLatLng { lat : number; lng : number }.

(** [type Point = { lat: number; lng: number; label: string }]; a [Point]
    is accepted wherever a [{ lat, lng }] is expected. *)
Record Point : Type := mkPoint { coords :> LatLng; label : string }.

(** [{ x, y, z }] *)
Record Vec3 : Type := mkVec3 { x : number; y : number; z : number }.

(** The value of [viewForPoints]: [{ ...center, farAltitude }]. *)
Record View : Type := mkView { center :> LatLng; farAltitude : number }.

Definition DEFAULT_POINT_OF_VIEW : LatLng := {| lat := 20; lng := 0 |}.
Definition FAR_ALTITUDE : number := 4.6.
Definition CLOSE_ALTITUDE : number := 1.1.

Definition toRad (deg : number) : number := (deg * PI) / 180.
Definition toDeg (rad : number) : number := (rad * 180) / PI.

Definition wrapLng (lng : number) : number :=
  let wrapped := rem (lng + 180) 360 - 180 in
  if Rlt_dec wrapped (-180) then wrapped + 360 else wrapped.

(** The term [h] of [angularDistance]. *)
Definition haversine (a b : LatLng) : number :=
  let lat1 := toRad (lat a) in
  let lat2 := toRad (lat b) in
  let dLat := lat2 - lat1 in
  let dLng := toRad (lng b - lng a) in
  sin (dLat / 2) ^ 2 + cos lat1 * cos lat2 * sin (dLng / 2) ^ 2.

Definition angularDistance (a b : LatLng) : option number :=
  let h := haversine a b in
  r <- Math_sqrt h ;;
  s <- Math_asin (Rmin 1 r) ;;
  ret (2 * s).

Definition cartesianFromLatLng (p : LatLng) : Vec3 :=
  let phi := toRad (lat p) in
  let theta := toRad (lng p) in
  {| x := cos phi * cos theta;
     y := cos phi * sin theta;
     z := sin phi |}.

Definition latLngFromCartesian (v : Vec3) : option LatLng :=
  hyp <- Math_sqrt (x v * x v + y v * y v) ;;
  ret {| lat := toDeg (Math_atan2 (z v) hyp);
         lng := wrapLng (toDeg (Math_atan2 (y v) (x v))) |}.

(** The first [reduce] of [viewForPoints]: the componentwise sum. *)
Definition addPoint (acc : Vec3) (point : Point) : Vec3 :=
  let c := cartesianFromLatLng point in
  {| x := x acc + x c; y := y acc + y c; z := z acc + z c |}.

(** The second [reduce] of [viewForPoints]: the largest angle to the
    center. *)
Definition widen (center : LatLng) (max : number) (point : Point)
  : option number :=
  angle <- angularDistance center point ;;
  ret (Rmax max angle).

(** [magnitude === 0] is decided on the real numbers, with PI for
    [Math.PI]: unit vectors that cancel for PI (those of two antipodal
    points) have the magnitude 0 here.  With the double [Math.PI] they do
    not cancel; that case is the matter of [MathPI] below. *)
Definition viewForPoints (points : list Point) : option View :=
  match points with
  | [] =>
      ret {| center := DEFAULT_POINT_OF_VIEW; farAltitude := FAR_ALTITUDE |}
  | [p] =>
      ret {| center := {| lat := lat p; lng := lng p |};
             farAltitude := CLOSE_ALTITUDE + 0.1 |}
  | _ =>
      let sum := fold_left addPoint points {| x := 0; y := 0; z := 0 |} in
      magnitude <-
        Math_sqrt (x sum * x sum + y sum * y sum + z sum * z sum) ;;
      center <-
        (if Req_dec_T magnitude 0 then ret DEFAULT_POINT_OF_VIEW
         else
           nx <- div (x sum) magnitude ;;
           ny <- div (y sum) magnitude ;;
           nz <- div (z sum) magnitude ;;
           latLngFromCartesian {| x := nx; y := ny; z := nz |}) ;;
      maxAngularSpread <- reduceM (widen center) points 0 ;;
      let spreadRatio := Rmin (maxAngularSpread / (PI / 2)) 1 in
      let farAltitude :=
        CLOSE_ALTITUDE
        + (FAR_ALTITUDE - CLOSE_ALTITUDE) * (0.35 + 0.65 * spreadRatio) in
      ret {| center := center;
             farAltitude :=
               Rmin (Rmax farAltitude CLOSE_ALTITUDE) FAR_ALTITUDE |}
  end.

(** [closeAltitude] of the component, from the far altitude of the base
    view. *)
Definition closeAltitude (far : number) : number :=
  Rmax CLOSE_ALTITUDE (far - 1.35).

(** [targetAltitude] of the zoom effect, for the far and close altitudes of
    the base view and the [zoomProgress] property. *)
Definition targetAltitude (far close zoomProgress : number) : number :=
  let clampedProgress := Rmin (Rmax zoomProgress 0) 1 in
  far - (far - close) * clampedProgress.

(** The two points of the component. *)
Definition me : Point :=
  {| coords := {| lat := 45.815; lng := 15.9819 |};
     label := "Petar (general area)" |}.
Definition viewer : Point :=
  {| coords := {| lat := 37.7749; lng := -122.4194 |};
     label := "Viewer (placeholder)" |}.

(** A point of the data model: latitude in [-90, 90], longitude in
    [-180, 180]. *)
Definition valid (p : LatLng) : Prop :=
  -90 <= lat p <= 90 /\ -180 <= lng p <= 180.

End GlobeScene.

(** ** [src/lib/geo.ts] *)

Module Geo.

Import GlobeScene.

Definition haversineKm (a b : LatLng) : option number :=
  let R_km := 6371 in
  let toRad := fun d : number => (d * PI) / 180 in
  let dLat := toRad (lat b - lat a) in
  let dLon := toRad (lng b - lng a) in
  let lat1 := toRad (lat a) in
  let lat2 := toRad (lat b) in
  let s :=
    sin (dLat / 2) ^ 2 + cos lat1 * cos lat2 * sin (dLon / 2) ^ 2 in
  r <- Math_sqrt s ;;
  t <- Math_asin r ;;
  ret (2 * R_km * t).

End Geo.

(** ** The geometry for the value that [Math.PI] has *)

(** [Math.PI] is a double, the one nearest to the real number PI, and not
    PI itself.  This module has the functions of [GlobeScene] that reach
    [viewForPoints] once more, word for word, with the value of [Math.PI]
    as a parameter: at PI they are the functions of [GlobeScene]; at
    [Math_PI_double] they compute, in exact arithmetic, with the constant
    that the code computes with. *)

Module MathPI.

Import GlobeScene.


Section Constant.

Variable Math_PI : number.

Definition toRad (deg : number) : number := (deg * Math_PI) / 180.
Definition toDeg (rad : number) : number := (rad * 180) / Math_PI.

Definition haversine (a b : LatLng) : number :=
  let lat1 := toRad (lat a) in
  let lat2 := toRad (lat b) in
  let dLat := lat2 - lat1 in
  let dLng := toRad (lng b - lng a) in
  sin (dLat / 2) ^ 2 + cos lat1 * cos lat2 * sin (dLng / 2) ^ 2.

Definition angularDistance (a b : LatLng) : option number :=
  let h := haversine a b in
  r <- Math_sqrt h ;;
  s <- Math_asin (Rmin 1 r) ;;
  ret (2 * s).

Definition cartesianFromLatLng (p : LatLng) : Vec3 :=
  let phi := toRad (lat p) in
  let theta := toRad (lng p) in
  {| x := cos phi * cos theta;
     y := cos phi * sin theta;
     z := sin phi |}.

Definition latLngFromCartesian (v : Vec3) : option LatLng :=
  hyp <- Math_sqrt (x v * x v + y v * y v) ;;
  ret {| lat := toDeg (Math_atan2 (z v) hyp);
         lng := wrapLng (toDeg (Math_atan2 (y v) (x v))) |}.

Definition addPoint (acc : Vec3) (point : Point) : Vec3 :=
  let c := cartesianFromLatLng point in
  {| x := x acc + x c; y := y acc + y c; z := z acc + z c |}.

Definition widen (center : LatLng) (max : number) (point : Point)
  : option number :=
  angle <- angularDistance center point ;;
  ret (Rmax max angle).

Definition viewForPoints (points : list Point) : option View :=
  match points with
  | [] =>
      ret {| center := DEFAULT_POINT_OF_VIEW; farAltitude := FAR_ALTITUDE |}
  | [p] =>
      ret {| center := {| lat := lat p; lng := lng p |};
             farAltitude := CLOSE_ALTITUDE + 0.1 |}
  | _ =>
      let sum := fold_left addPoint points {| x := 0; y := 0; z := 0 |} in
      magnitude <-
        Math_sqrt (x sum * x sum + y sum * y sum + z sum * z sum) ;;
      center <-
        (if Req_dec_T magnitude 0 then ret DEFAULT_POINT_OF_VIEW
         else
           nx <- div (x sum) magnitude ;;
           ny <- div (y sum) magnitude ;;
           nz <- div (z sum) magnitude ;;
           latLngFromCartesian {| x := nx; y := ny; z := nz |}) ;;
      maxAngularSpread <- reduceM (widen center) points 0 ;;
      let spreadRatio := Rmin (maxAngularSpread / (Math_PI / 2)) 1 in
      let farAltitude :=
        CLOSE_ALTITUDE
        + (FAR_ALTITUDE - CLOSE_ALTITUDE) * (0.35 + 0.65 * spreadRatio) in
      ret {| center := center;
             farAltitude :=
               Rmin (Rmax farAltitude CLOSE_ALTITUDE) FAR_ALTITUDE |}
  end.

End Constant.

End MathPI.

(** ** The camera of [GlobeScene]: the effects that move it *)

Module Camera.

Import GlobeScene.

(** The argument of [g.pointOfView]: [{ lat, lng, altitude }]. *)
Record PointOfView : Type :=
  mkPointOfView { target :> LatLng; altitude : number }.

(** The globe behind [globeRef], with the point of view it was last given
    ([None] before the first call of [g.pointOfView]). *)
Record Globe : Type := mkGlobe { pointOfView : option PointOfView }.

(** The refs of the component: [globeRef.current], [null] until the globe
    is mounted, and [lastAltitudeRef.current]. *)
Record Refs : Type :=
  mkRefs { globeRef : option Globe; lastAltitudeRef : option number }.

(** [g.pointOfView({ lat, lng, altitude }, 0)] for the center of the base
    view. *)
Definition look (basePointOfView : View) (a : number) : Globe :=
  {| pointOfView :=
       Some {| target := {| lat := lat basePointOfView;
                            lng := lng basePointOfView |};
               altitude := a |} |}.

(** The effect that clears [lastAltitudeRef] when the base view changes. *)
Definition resetLastAltitude (r : Refs) : Refs :=
  {| globeRef := globeRef r; lastAltitudeRef := None |}.

(** The effect that sets the controls and the point of view when the base
    view changes; the settings of the controls are not modelled. *)
Definition initGlobe (basePointOfView : View) (r : Refs) : Refs :=
  match globeRef r with
  | None => r
  | Some _ =>
      {| globeRef := Some (look basePointOfView (farAltitude basePointOfView));
         lastAltitudeRef := lastAltitudeRef r |}
  end.

Definition applyBasePointOfView (basePointOfView : View) (r : Refs) : Refs :=
  match globeRef r with
  | None => r
  | Some _ =>
      {| globeRef := Some (look basePointOfView (farAltitude basePointOfView));
         lastAltitudeRef := Some (farAltitude basePointOfView) |}
  end.

(** The zoom effect, with its update suppression. *)
Definition zoomEffect (basePointOfView : View) (closeAltitude : number)
    (zoomProgress : number) (r : Refs) : Refs :=
  match globeRef r with
  | None => r
  | Some _ =>
      let targetAltitude :=
        targetAltitude (farAltitude basePointOfView) closeAltitude
          zoomProgress in
      let apply :=
        {| globeRef := Some (look basePointOfView targetAltitude);
           lastAltitudeRef := Some targetAltitude |} in
      match lastAltitudeRef r with
      | Some last =>
          if Rlt_dec (Rabs (last - targetAltitude)) 0.0005 then r else apply
      | None => apply
      end
  end.

(** One run of the effects of the component for a base view that stays the
    same: the two effects on the base view, which have the same
    dependencies and run together in the order of the source; a call of
    [applyBasePointOfView] (globe ready, animation frame, timeout); the
    zoom effect for a new [zoomProgress]. *)
Inductive Run : Type :=
  | BaseEffects
  | ApplyBase
  | Zoom (zoomProgress : number).

Definition run (basePointOfView : View) (closeAltitude : number)
    (r : Refs) (e : Run) : Refs :=
  match e with
  | BaseEffects => initGlobe basePointOfView (resetLastAltitude r)
  | ApplyBase => applyBasePointOfView basePointOfView r
  | Zoom zoomProgress =>
      zoomEffect basePointOfView closeAltitude zoomProgress r
  end.

Definition runs (basePointOfView : View) (closeAltitude : number)
    (es : list Run) (r : Refs) : Refs :=
  fold_left (run basePointOfView closeAltitude) es r.

(** The invariant of the refs: when [lastAltitudeRef] holds an altitude,
    the globe was last given the center of the base view at that
    altitude. *)
Definition memo_is_camera (basePointOfView : View) (r : Refs) : Prop :=
  forall (g : Globe) (a : number),
    globeRef r = Some g -> lastAltitudeRef r = Some a ->
    g = look basePointOfView a.

End Camera.

(** ** [src/components/GlobeScene.tsx]: the scene with a fixed view *)

Module GlobeSceneFixed.

Definition BASE_POINT_OF_VIEW : GlobeScene.LatLng :=
  {| GlobeScene.lat := 20; GlobeScene.lng := 0 |}.
Definition FAR_ALTITUDE : number := 1.2.
Definition CLOSE_ALTITUDE : number := 0.6.

(** [targetAltitude] of the zoom effect. *)
Definition targetAltitude (zoomProgress : number) : number :=
  let clampedProgress := Rmin (Rmax zoomProgress 0) 1 in
  FAR_ALTITUDE - (FAR_ALTITUDE - CLOSE_ALTITUDE) * clampedProgress.

End GlobeSceneFixed.

(** ** The scroll controller of the home page *)

Module Home.

(** The progress computed in the animation frame of [handleScroll], from
    [window.innerHeight] and [window.scrollY]. *)
Definition scrollProgressOf (innerHeight scrollY : number) : option number :=
  let deadZone := Rmax (innerHeight * 0.12) 80 in
  let scrollRange := Rmax (innerHeight * 0.8) 1 in
  let offsetY := Rmax (scrollY - deadZone) 0 in
  q <- div offsetY scrollRange ;;
  ret (Rmin q 1).

(** The updater given to [setScrollProgress]. *)
Definition updateScrollProgress (progress prev : number) : number :=
  if Rlt_dec (Rabs (prev - progress)) 0.003 then prev else progress.

(** The state [scrollProgress] after one frame of [handleScroll]. *)
Definition handleScroll (prev : number) (window : number * number)
  : option number :=
  let (innerHeight, scrollY) := window in
  progress <- scrollProgressOf innerHeight scrollY ;;
  ret (updateScrollProgress progress prev).

End Home.

(** ** Numbers as text *)

Module JsString.

(** [Math.floor] and [Math.round] (halves are rounded up). *)
Definition Math_floor (v : number) : number := IZR (Zfloor v).
Definition Math_round (v : number) : number := IZR (Zfloor (v + 1 / 2)).

(** [String(v)] and [`${v}`] for a whole number below 2^53 in absolute
    value: its decimal digits, after a minus sign when it is negative.
    Other numbers are not modelled: a number with a fractional part is
    printed with it, and from 2^53 on a double is printed with the shortest
    digits that read back as the same double, which are not the digits of
    the whole number computed here.  The numbers that the code prints stay
    below 2^53: the minutes and seconds of a track time, and the minutes
    between two dates, which lie at most 8.64 * 10^15 milliseconds from the
    epoch. *)
Definition String_of_number (v : number) : string :=
  NilEmpty.string_of_int (Z.to_int (Zfloor v)).

(** The first [n] characters of [pad] repeated; [cur] is what is left of
    the current copy. *)
Fixpoint fill (pad cur : string) (n : nat) : string :=
  match n with
  | O => EmptyString
  | S n' =>
      match cur with
      | String c rest => String c (fill pad rest n')
      | EmptyString =>
          match pad with
          | String c rest => String c (fill pad rest n')
          | EmptyString => EmptyString
          end
      end
  end.

(** The character of a decimal digit. *)
Definition digit (d : Z) : Ascii.ascii := Ascii.ascii_of_nat (48 + Z.to_nat d).

(** [s.padStart(targetLength, padString)] *)
Definition padStart (targetLength : nat) (padString s : string) : string :=
  if (targetLength <=? String.length s)%nat then s
  else (fill padString padString (targetLength - String.length s) ++ s)%string.

End JsString.

(** ** The now-playing panel *)

Module NowPlaying.

Import JsString.

Local Open Scope string_scope.

(** [formatMs]; [None] stands for an argument that is [undefined] or
    [NaN]. *)
Definition formatMs (ms : option number) : string :=
  match ms with
  | None => "0:00"
  | Some ms =>
      let totalSeconds := Rmax 0 (Math_floor (ms / 1000)) in
      let minutes := Math_floor (totalSeconds / 60) in
      let seconds :=
        padStart 2 "0" (String_of_number (rem totalSeconds 60)) in
      String_of_number minutes ++ ":" ++ seconds
  end.

(** [formatUpdatedAgo], for the value [now] of [Date.now()] and the function
    [getTime] that stands for [new Date(s).getTime()], [None] when the
    text is not a date ([NaN]). *)
Definition formatUpdatedAgo (now : number)
    (getTime : string -> option number) (lastUpdated : option string)
  : string :=
  match lastUpdated with
  | None => "just now"
  | Some "" => "just now"
  | Some s =>
      match getTime s with
      | None => "NaN minutes ago"
      | Some t =>
          let diffMs := Rmax 0 (now - t) in
          if Rlt_dec diffMs 30000 then "just now"
          else if Rlt_dec diffMs 90000 then "1 minute ago"
          else
            let minutes := Math_round (diffMs / 60000) in
            String_of_number minutes ++ " minutes ago"
      end
  end.

(** [type NowPlayingResponse]; a field that is absent is [None]. *)
Record NowPlayingResponse : Type :=
  mkNowPlayingResponse
    { isPlaying : bool;
      track : option string;
      artists : option string;
      album : option string;
      albumImageUrl : option string;
      trackUrl : option string;
      durationMs : option number;
      progressMs : option number;
      lastUpdated : option string;
      source : option string;
      error : option string }.

(** [a ?? b] *)
Definition orElse (a : option number) (b : number) : number :=
  match a with
  | Some v => v
  | None => b
  end.

(** [derivedProgressMs], for the state [data] ([null] is [None]); [now1] and
    [now2] are the values of the two calls of [Date.now()], in the order
    of the source, and [getTime] stands for [new Date(s).getTime()].  The
    result is [None] when it is [NaN]. *)
Definition derivedProgressMs (now1 now2 : number)
    (getTime : string -> option number) (data : option NowPlayingResponse)
  : option number :=
  match data with
  | None => ret 0
  | Some data =>
      if negb (isPlaying data) then ret (orElse (progressMs data) 0)
      else
        lastUpdated <-
          match lastUpdated data with
          | None => ret now1
          | Some "" => ret now1
          | Some s => getTime s
          end ;;
        let elapsed := now2 - lastUpdated in
        let base := orElse (progressMs data) 0 in
        let duration := orElse (durationMs data) base in
        ret (Rmin duration (base + elapsed))
  end.

(** [progressPercent], for the value of [derivedProgressMs]. *)
Definition progressPercent (derivedProgressMs : option number)
    (data : option NowPlayingResponse) : option number :=
  match data with
  | None => ret 0
  | Some data =>
      match durationMs data with
      | None => ret 0
      | Some duration =>
          if Req_dec_T duration 0 then ret 0
          else if Rlt_dec 0 duration then
            derived <- derivedProgressMs ;;
            q <- div derived duration ;;
            ret (Rmin 100 (q * 100))
          else ret 0
      end
  end.

End NowPlaying.

(** ** The now-playing route *)

Module Spotify.

(** [{ url: string; width: number; height: number }] *)
Record Image : Type :=
  mkImage { url : string; width : number; height : number }.

(** [img.width || d] *)
Definition widthOr (d : number) (img : Image) : number :=
  if Req_dec_T (width img) 0 then d else width img.

(** [Array.prototype.sort] with the comparator
    [(a, b) => (a.width || 0) - (b.width || 0)]: the sort is stable and the
    comparator is an order, so the result is the stable ascending order,
    produced here by insertion. *)
Fixpoint insertByWidth (img : Image) (sorted : list Image) : list Image :=
  match sorted with
  | [] => [img]
  | b :: rest =>
      if Rlt_dec (widthOr 0 img - widthOr 0 b) 0 then img :: sorted
      else b :: insertByWidth img rest
  end.

Definition sortByWidth (images : list Image) : list Image :=
  fold_left (fun sorted img => insertByWidth img sorted) images [].

(** The order of the sort, and how far the width of an image is from the
    target width of [pickAlbumImage]. *)
Definition narrower (a b : Image) : Prop := widthOr 0 a <= widthOr 0 b.
Definition offTarget (img : Image) : number := Rabs (widthOr 320 img - 320).

(** The body of the [for] loop of [pickAlbumImage]. *)
Definition closer (targetWidth : number) (best img : Image) : Image :=
  if Rlt_dec (Rabs (widthOr targetWidth img - targetWidth))
             (Rabs (widthOr targetWidth best - targetWidth))
  then img else best.

(** [pickAlbumImage]; [None] stands for [undefined], as an argument and as
    a result. *)
Definition pickAlbumImage (images : option (list Image)) : option string :=
  match images with
  | None => None
  | Some [] => None
  | Some images =>
      let sorted := sortByWidth images in
      let targetWidth := 320 in
      match sorted with
      | [] => None (* not reached: [sorted] has the length of [images] *)
      | first :: _ =>
          let best := fold_left (closer targetWidth) sorted first in
          Some (url best)
      end
  end.

End Spotify.

(** ** The admin session and the login route *)

Module Auth.

Local Open Scope string_scope.

(** What a call gives: an exception or a value. *)
Inductive Outcome (A : Type) : Type :=
  | Threw
  | Returned (a : A).

Arguments Threw {A}.
Arguments Returned {A} a.

(** The values of [JSON.parse]; a number that is not finite (an overflow)
    is [JNumber None]. *)
#[local] Set Warnings "-register-all".
Inductive Json : Type :=
  | JNull
  | JBool (b : bool)
  | JNumber (v : option number)
  | JString (s : string)
  | JArray (items : list Json)
  | JObject (fields : list (string * Json)).

Fixpoint lookup (key : string) (fields : list (string * Json))
  : option Json :=
  match fields with
  | [] => None
  | (k, v) :: rest => if String.eqb k key then Some v else lookup key rest
  end.

(** [j.key] for a key that is not a built-in property: a [TypeError] on
    [null], the field of an object, [undefined] ([None]) otherwise. *)
Definition prop (key : string) (j : Json) : Outcome (option Json) :=
  match j with
  | JNull => Threw
  | JObject fields => Returned (lookup key fields)
  | _ => Returned None
  end.

(** [s.split(".")] *)
Fixpoint split_dot (s : string) : list string :=
  match s with
  | EmptyString => [EmptyString]
  | String c rest =>
      if Ascii.eqb c "."%char then EmptyString :: split_dot rest
      else
        match split_dot rest with
        | p :: ps => String c p :: ps
        | [] => [String c EmptyString]
        end
  end.

(** [crypto.timingSafeEqual] on the bytes of two texts: a [RangeError] when
    the lengths differ. *)
Definition timingSafeEqual (a b : string) : Outcome bool :=
  if (String.length a =? String.length b)%nat then Returned (String.eqb a b)
  else Threw.

Definition SESSION_COOKIE_NAME : string := "petar_admin_session".
Definition SESSION_TTL_MS : number := 365 * 24 * 60 * 60 * 1000.

(** [{ role: "admin", exp }] *)
Definition adminSession (exp : number) : Json :=
  JObject [("role", JString "admin"); ("exp", JNumber (Some exp))].

Section Platform.

(** [crypto.createHmac("sha256", secret).update(data).digest("base64url")],
    as a function of the secret and the data. *)
Variable hmac : string -> string -> string.
(** [Buffer.from(s).toString("base64url")] and
    [Buffer.from(s, "base64url").toString("utf8")]. *)
Variable toBase64url : string -> string.
Variable fromBase64url : string -> string.
(** [JSON.stringify] and [JSON.parse], [None] for a [SyntaxError]. *)
Variable JSON_stringify : Json -> string.
Variable JSON_parse : string -> option Json.

(** [getSecret], for the value of [process.env.ADMIN_SESSION_SECRET]. *)
Definition getSecret (ADMIN_SESSION_SECRET : option string)
  : Outcome string :=
  match ADMIN_SESSION_SECRET with
  | None => Threw
  | Some "" => Threw
  | Some secret => Returned secret
  end.

Definition encode (session : Json) (secret : string) : string :=
  let payload := toBase64url (JSON_stringify session) in
  let sig := hmac secret payload in
  payload ++ "." ++ sig.

(** The [try] block of [decode], where every exception gives [null]; [now]
    is the value of [Date.now()]. *)
Definition readSession (payload : string) (now : number) : option Json :=
  match JSON_parse (fromBase64url payload) with
  | None => None
  | Some session =>
      match prop "role" session with
      | Returned (Some (JString role)) =>
          if String.eqb role "admin" then
            match prop "exp" session with
            | Returned (Some (JNumber (Some exp))) =>
                if Rlt_dec exp now then None else Some session
            | _ => None
            end
          else None
      | _ => None
      end
  end.

Definition decode (token secret : string) (now : number)
  : Outcome (option Json) :=
  match split_dot token with
  | payload :: sig :: _ =>
      match payload, sig with
      | EmptyString, _ => Returned None
      | _, EmptyString => Returned None
      | _, _ =>
          let expected := hmac secret payload in
          match timingSafeEqual sig expected with
          | Threw => Threw
          | Returned false => Returned None
          | Returned true => Returned (readSession payload now)
          end
      end
  | _ => Returned None
  end.

Definition issueAdminToken (ADMIN_SESSION_SECRET : option string)
    (now : number) : Outcome string :=
  match getSecret ADMIN_SESSION_SECRET with
  | Threw => Threw
  | Returned secret =>
      Returned (encode (adminSession (now + SESSION_TTL_MS)) secret)
  end.

(** [validateAdminToken]; a token that is [undefined] or [null] is
    [None]. *)
Definition validateAdminToken (ADMIN_SESSION_SECRET : option string)
    (now : number) (token : option string) : bool :=
  match token with
  | None => false
  | Some "" => false
  | Some token =>
      match getSecret ADMIN_SESSION_SECRET with
      | Threw => false
      | Returned secret =>
          match decode token secret now with
          | Returned (Some _) => true
          | _ => false
          end
      end
  end.

Definition sessionCookieName : string := SESSION_COOKIE_NAME.
Definition sessionMaxAgeSeconds : number :=
  IZR (Zfloor (SESSION_TTL_MS / 1000)).

(** The login route. *)

Record Cookie : Type :=
  mkCookie { name : string; value : string; httpOnly : bool;
             sameSite : string; secure : bool; path : string;
             maxAge : number }.

Inductive Body : Type :=
  | Authenticated (authenticated : bool)
  | Error (error : string)
  | Ok.

(** A response: its status, its JSON body and the cookies it sets. *)
Record Response : Type :=
  mkResponse { status : nat; body : Body; cookies : list Cookie }.

(** [getPassword], for the value of [process.env.ADMIN_PASSWORD]. *)
Definition getPassword (ADMIN_PASSWORD : option string) : option string :=
  match ADMIN_PASSWORD with
  | None => None
  | Some "" => None
  | Some password => Some password
  end.

(** [GET], for the value of the session cookie of the request. *)
Definition GET (ADMIN_SESSION_SECRET : option string) (now : number)
    (existing : option string) : Response :=
  let authenticated := validateAdminToken ADMIN_SESSION_SECRET now existing in
  {| status := 200; body := Authenticated authenticated; cookies := [] |}.

(** [POST].  The body of the request is [None] when [req.json()] or the
    destructuring throws, and otherwise holds the [password] field, [None]
    when it is missing or is not a text (a value that is not a text is
    refused like a wrong password).  [production] is
    [process.env.NODE_ENV === "production"]. *)
Definition POST (ADMIN_PASSWORD ADMIN_SESSION_SECRET : option string)
    (production : bool) (now : number) (json : option (option string))
  : Outcome Response :=
  match json with
  | None =>
      Returned {| status := 400; body := Error "Invalid JSON"; cookies := [] |}
  | Some password =>
      match getPassword ADMIN_PASSWORD with
      | None =>
          Returned {| status := 500; body := Error "ADMIN_PASSWORD is not set.";
                      cookies := [] |}
      | Some requiredPassword =>
          match password with
          | Some (String c rest as password) =>
              if String.eqb password requiredPassword then
                match issueAdminToken ADMIN_SESSION_SECRET now with
                | Threw => Threw
                | Returned token =>
                    Returned
                      {| status := 200; body := Ok;
                         cookies :=
                           [ {| name := sessionCookieName; value := token;
                                httpOnly := true; sameSite := "strict";
                                secure := production; path := "/";
                                maxAge := sessionMaxAgeSeconds |} ] |}
                end
              else
                Returned {| status := 401; body := Error "Invalid credentials";
                            cookies := [] |}
          | _ =>
              Returned {| status := 401; body := Error "Invalid credentials";
                          cookies := [] |}
          end
      end
  end.

End Platform.

(** A text without a dot. *)
Fixpoint dot_free (s : string) : Prop :=
  match s with
  | EmptyString => True
  | String c rest => c <> "."%char /\ dot_free rest
  end.

End Auth.

Import GlobeScene.

(** ** Partial operations where they are defined *)

Section PartialOperations.

Lemma Math_sqrt_some (v : number) : 0 <= v -> Math_sqrt v = Some (sqrt v).
Proof.
  intros Hv. unfold Math_sqrt. destruct (Rle_dec 0 v); [reflexivity | tauto].
Qed.

Lemma Math_asin_some (v : number) :
  -1 <= v <= 1 -> Math_asin v = Some (asin v).
Proof.
  intros [Hl Hu]. unfold Math_asin.
  destruct (Rle_dec (-1) v); [| tauto].
  destruct (Rle_dec v 1); [reflexivity | tauto].
Qed.

Lemma div_some (a b : number) : b <> 0 -> div a b = Some (a / b).
Proof.
  intros Hb. unfold div. destruct (Req_dec_T b 0); [tauto | reflexivity].
Qed.

Lemma Rmin_1_sqrt_range (h : number) : 0 <= Rmin 1 (sqrt h) <= 1.
Proof.
  split.
  - apply Rmin_glb; [lra | apply sqrt_pos].
  - apply Rmin_l.
Qed.

End PartialOperations.

(** ** The haversine term *)

Section Haversine.

(** [sin (d / 2) ^ 2] through the cosine of [d]. *)
Lemma sin_half_sq (d : R) : sin (d / 2) ^ 2 = (1 - cos d) / 2.
Proof.
  replace (cos d) with (cos (2 * (d / 2))) by (f_equal; field).
  rewrite cos_2a_sin. field.
Qed.

Lemma sin_sq_range (t : R) : 0 <= sin t ^ 2 <= 1.
Proof.
  pose proof (SIN_bound t) as [Hl Hu]. split; nra.
Qed.

(** The term is in [0, 1] for all latitudes and longitudes: it is a convex
    combination of [(1 - cos (q - p)) / 2] and [(1 + cos (p + q)) / 2]. *)
Lemma haversine_term_range (p q s : R) :
  0 <= s <= 1 ->
  0 <= sin ((q - p) / 2) ^ 2 + cos p * cos q * s <= 1.
Proof.
  intros [Hs0 Hs1].
  rewrite sin_half_sq, cos_minus.
  pose proof (COS_bound (q - p)) as [Hm1 Hm2]. rewrite cos_minus in Hm1, Hm2.
  pose proof (COS_bound (q + p)) as [Hp1 Hp2]. rewrite cos_plus in Hp1, Hp2.
  set (c := cos q * cos p) in *. set (t := sin q * sin p) in *.
  replace (cos p * cos q) with c by (unfold c; ring).
  split; nra.
Qed.

Lemma haversine_range (a b : LatLng) : 0 <= haversine a b <= 1.
Proof.
  unfold haversine. apply haversine_term_range. apply sin_sq_range.
Qed.

Lemma asin_range (v : R) : 0 <= v <= 1 -> 0 <= asin v <= PI / 2.
Proof.
  intros [H0 H1]. split.
  - destruct (Req_dec v 0) as [->|Hne].
    + rewrite asin_0. lra.
    + destruct (Req_dec v 1) as [->|Hn1].
      * rewrite asin_1. pose proof PI_RGT_0. lra.
      * assert (Hin : -1 < v < 1) by lra.
        pose proof (asin_bound_lt v Hin) as [Hl Hu].
        destruct (Rle_dec 0 (asin v)) as [|Hneg]; [assumption|].
        exfalso. apply Rnot_le_lt in Hneg.
        assert (Hs : sin (asin v) < 0).
        { apply sin_lt_0_var; [|assumption]. pose proof PI_RGT_0. lra. }
        rewrite sin_asin in Hs by lra. lra.
  - apply asin_bound.
Qed.

Lemma angularDistance_value (a b : LatLng) :
  angularDistance a b = Some (2 * asin (Rmin 1 (sqrt (haversine a b)))).
Proof.
  unfold angularDistance.
  rewrite Math_sqrt_some by apply haversine_range. cbn [bind].
  rewrite Math_asin_some.
  - reflexivity.
  - pose proof (Rmin_1_sqrt_range (haversine a b)). lra.
Qed.

Lemma angle_range (h : R) : 0 <= 2 * asin (Rmin 1 (sqrt h)) <= PI.
Proof.
  pose proof (asin_range _ (Rmin_1_sqrt_range h)). lra.
Qed.

End Haversine.

(** ** The framing computation is defined on every list *)

Section Framing.

Lemma latLngFromCartesian_value (v : Vec3) :
  latLngFromCartesian v =
  Some {| lat := toDeg (Math_atan2 (z v) (sqrt (x v * x v + y v * y v)));
          lng := wrapLng (toDeg (Math_atan2 (y v) (x v))) |}.
Proof.
  unfold latLngFromCartesian.
  rewrite Math_sqrt_some by nra. reflexivity.
Qed.

Lemma widen_value (c : LatLng) (m : number) (p : Point) :
  widen c m p = Some (Rmax m (2 * asin (Rmin 1 (sqrt (haversine c p))))).
Proof.
  unfold widen. rewrite angularDistance_value. reflexivity.
Qed.

Lemma reduceM_widen_defined (c : LatLng) (points : list Point) :
  forall m0 : number,
    exists m : number, reduceM (widen c) points m0 = Some m /\ m0 <= m.
Proof.
  induction points as [|p points IH]; intros m0; cbn [reduceM].
  - exists m0. split; [reflexivity | lra].
  - rewrite widen_value. cbn [bind].
    destruct (IH (Rmax m0 (2 * asin (Rmin 1 (sqrt (haversine c p))))))
      as (m & Hm & Hle).
    exists m. split; [assumption|].
    eapply Rle_trans; [apply Rmax_l | exact Hle].
Qed.

(** The clamp of the last line of [viewForPoints]. *)
Lemma clamp_altitude_range (a : number) :
  CLOSE_ALTITUDE <= Rmin (Rmax a CLOSE_ALTITUDE) FAR_ALTITUDE <= FAR_ALTITUDE.
Proof.
  unfold CLOSE_ALTITUDE, FAR_ALTITUDE. split.
  - apply Rmin_glb; [apply Rmax_r | lra].
  - apply Rmin_r.
Qed.

(** The normalised sum, or the default center when the sum is zero. *)
Lemma center_defined (s : Vec3) (magnitude : number) :
  exists c : LatLng,
    (if Req_dec_T magnitude 0 then ret DEFAULT_POINT_OF_VIEW
     else
       nx <- div (x s) magnitude ;;
       ny <- div (y s) magnitude ;;
       nz <- div (z s) magnitude ;;
       latLngFromCartesian {| x := nx; y := ny; z := nz |}) = Some c.
Proof.
  destruct (Req_dec_T magnitude 0) as [Hz|Hnz].
  - exists DEFAULT_POINT_OF_VIEW. reflexivity.
  - rewrite !div_some by assumption. cbn [bind].
    rewrite latLngFromCartesian_value. eexists. reflexivity.
Qed.

Lemma viewForPoints_many (p q : Point) (l : list Point) :
  exists (c : LatLng) (spread : number),
    viewForPoints (p :: q :: l) =
    Some {| center := c;
            farAltitude :=
              Rmin (Rmax (CLOSE_ALTITUDE
                          + (FAR_ALTITUDE - CLOSE_ALTITUDE)
                            * (0.35 + 0.65 * Rmin (spread / (PI / 2)) 1))
                         CLOSE_ALTITUDE) FAR_ALTITUDE |}.
Proof.
  unfold viewForPoints.
  set (sum := fold_left addPoint (p :: q :: l) {| x := 0; y := 0; z := 0 |}).
  rewrite Math_sqrt_some by nra. cbn [bind].
  destruct (center_defined sum
              (sqrt (x sum * x sum + y sum * y sum + z sum * z sum)))
    as (c & Hc).
  rewrite Hc. cbn [bind].
  destruct (reduceM_widen_defined c (p :: q :: l) 0) as (m & Hm & _).
  rewrite Hm. cbn [bind].
  exists c, m. reflexivity.
Qed.

End Framing.

(** ** Claims on the altitude and on the angular distance *)

Section Altitude.

(** C2.  For every list of valid points (empty, a single point, or two and
    more), [viewForPoints] returns a view whose [farAltitude] lies in
    [CLOSE_ALTITUDE, FAR_ALTITUDE] = [1.1, 4.6]. *)
Theorem viewForPoints_farAltitude_range (points : list Point) :
  Forall (fun p : Point => valid p) points ->
  exists v : View,
    viewForPoints points = Some v /\
    CLOSE_ALTITUDE <= farAltitude v <= FAR_ALTITUDE.
Proof.
  intros _.
  destruct points as [|p [|q l]].
  - eexists. split; [reflexivity|].
    cbn [farAltitude]. unfold CLOSE_ALTITUDE, FAR_ALTITUDE. lra.
  - eexists. split; [reflexivity|].
    cbn [farAltitude]. unfold CLOSE_ALTITUDE, FAR_ALTITUDE. lra.
  - destruct (viewForPoints_many p q l) as (c & spread & Hv).
    eexists. split; [exact Hv|].
    cbn [farAltitude]. apply clamp_altitude_range.
Qed.

Lemma viewForPoints_farAltitude_range_witness :
  exists v : View,
    viewForPoints [me; viewer] = Some v /\
    CLOSE_ALTITUDE <= farAltitude v <= FAR_ALTITUDE.
Proof.
  apply (viewForPoints_farAltitude_range [me; viewer]).
  repeat constructor; unfold me, viewer; cbn; lra.
Defined.

(** The close altitude of the component is not above the far altitude of
    a view, which is at least [CLOSE_ALTITUDE]. *)
Lemma closeAltitude_le (far : number) :
  CLOSE_ALTITUDE <= far -> closeAltitude far <= far.
Proof.
  intros Hfar. unfold closeAltitude. apply Rmax_lub; lra.
Qed.

(** C3.  With [close <= wide], the target altitude
    [wide - (wide - close) * clamp progress 0 1] is [wide] at progress 0,
    [close] at progress 1, and does not increase when the progress grows,
    over all real progress values. *)
Theorem targetAltitude_interpolates (wide close : number) :
  close <= wide ->
  targetAltitude wide close 0 = wide /\
  targetAltitude wide close 1 = close /\
  forall p q : number,
    p <= q -> targetAltitude wide close q <= targetAltitude wide close p.
Proof.
  intros Hcw. unfold targetAltitude. repeat split.
  - rewrite Rmax_left by lra. rewrite Rmin_left by lra. ring.
  - rewrite Rmax_left by lra. rewrite Rmin_right by lra. ring.
  - intros p q Hpq.
    assert (Hmono : Rmin (Rmax p 0) 1 <= Rmin (Rmax q 0) 1).
    { apply Rle_min_compat_r. apply Rle_max_compat_r. exact Hpq. }
    nra.
Qed.

Lemma targetAltitude_interpolates_witness :
  targetAltitude 4.6 3.25 0 = 4.6 /\
  targetAltitude 4.6 3.25 1 = 3.25 /\
  forall p q : number,
    p <= q -> targetAltitude 4.6 3.25 q <= targetAltitude 4.6 3.25 p.
Proof.
  apply (targetAltitude_interpolates 4.6 3.25). lra.
Defined.

(** C7.  For valid points the haversine term [h] of [angularDistance] is in
    [0, 1], the argument [min 1 (sqrt h)] of the arcsine is in [0, 1], so
    the arcsine is applied inside its domain, and the distance returned is
    in [0, PI]. *)
Theorem angularDistance_range (a b : LatLng) :
  valid a -> valid b ->
  0 <= haversine a b <= 1 /\
  0 <= Rmin 1 (sqrt (haversine a b)) <= 1 /\
  Math_asin (Rmin 1 (sqrt (haversine a b)))
    = Some (asin (Rmin 1 (sqrt (haversine a b)))) /\
  exists d : number, angularDistance a b = Some d /\ 0 <= d <= PI.
Proof.
  intros _ _. split; [apply haversine_range|].
  split; [apply Rmin_1_sqrt_range|].
  split.
  - apply Math_asin_some.
    pose proof (Rmin_1_sqrt_range (haversine a b)). lra.
  - eexists. split; [apply angularDistance_value | apply angle_range].
Qed.

Lemma angularDistance_range_witness :
  0 <= haversine me viewer <= 1 /\
  0 <= Rmin 1 (sqrt (haversine me viewer)) <= 1 /\
  Math_asin (Rmin 1 (sqrt (haversine me viewer)))
    = Some (asin (Rmin 1 (sqrt (haversine me viewer)))) /\
  exists d : number, angularDistance me viewer = Some d /\ 0 <= d <= PI.
Proof.
  apply (angularDistance_range me viewer).
  - unfold valid, me; cbn; lra.
  - unfold valid, viewer; cbn; lra.
Defined.

Lemma viewForPoints_defined (points : list Point) :
  exists v : View, viewForPoints points = Some v.
Proof.
  destruct points as [|p [|q l]].
  - eexists. reflexivity.
  - eexists. reflexivity.
  - destruct (viewForPoints_many p q l) as (c & spread & Hv).
    eexists. exact Hv.
Qed.

(** C10.  [viewForPoints] returns a view on every list of points: the
    division by the magnitude of the summed vectors is reached only when
    the magnitude is not zero, where it is defined, the default center
    being taken when the magnitude is zero; and no other operation leaves
    the finite numbers. *)
Theorem viewForPoints_total (points : list Point) :
  (exists v : View, viewForPoints points = Some v) /\
  (forall (s : Vec3) (magnitude : number),
      exists c : LatLng,
        (if Req_dec_T magnitude 0 then ret DEFAULT_POINT_OF_VIEW
         else
           nx <- div (x s) magnitude ;;
           ny <- div (y s) magnitude ;;
           nz <- div (z s) magnitude ;;
           latLngFromCartesian {| x := nx; y := ny; z := nz |}) = Some c /\
        (magnitude = 0 -> c = DEFAULT_POINT_OF_VIEW)).
Proof.
  split; [apply viewForPoints_defined|].
  intros s magnitude.
  destruct (center_defined s magnitude) as (c & Hc).
  exists c. split; [exact Hc|].
  intros Hz. destruct (Req_dec_T magnitude 0) as [_|Hn]; [|tauto].
  now injection Hc as <-.
Qed.

End Altitude.

(** ** The two haversine implementations *)

Section TwoHaversines.

Import Geo.

Lemma sqrt_le_1 (h : number) : 0 <= h <= 1 -> sqrt h <= 1.
Proof.
  intros [H0 H1]. rewrite <- sqrt_1. apply sqrt_le_1_alt. exact H1.
Qed.

(** [haversineKm] computes the same term as [angularDistance] and does not
    clamp it. *)
Lemma haversineKm_value (a b : LatLng) :
  haversineKm a b = Some (2 * 6371 * asin (sqrt (haversine a b))).
Proof.
  unfold haversineKm.
  replace (sin ((lat b - lat a) * PI / 180 / 2) ^ 2
           + cos (lat a * PI / 180) * cos (lat b * PI / 180)
             * sin ((lng b - lng a) * PI / 180 / 2) ^ 2)
    with (haversine a b).
  - rewrite Math_sqrt_some by apply haversine_range. cbn [bind].
    rewrite Math_asin_some; [reflexivity|].
    pose proof (sqrt_pos (haversine a b)).
    pose proof (sqrt_le_1 _ (haversine_range a b)). lra.
  - unfold haversine, toRad. do 3 f_equal. f_equal. field.
Qed.

(** C9.  For valid points, [haversineKm a b] is 6371 times
    [angularDistance a b]: the haversine term is at most 1, so the clamp of
    [angularDistance] changes nothing. *)
Theorem haversineKm_angularDistance (a b : LatLng) :
  valid a -> valid b ->
  exists d : number,
    angularDistance a b = Some d /\ haversineKm a b = Some (6371 * d).
Proof.
  intros _ _. eexists. split; [apply angularDistance_value|].
  rewrite haversineKm_value.
  rewrite (Rmin_right 1 (sqrt (haversine a b)))
    by (apply sqrt_le_1, haversine_range).
  f_equal. ring.
Qed.

Lemma haversineKm_angularDistance_witness :
  exists d : number,
    angularDistance me viewer = Some d /\
    haversineKm me viewer = Some (6371 * d).
Proof.
  apply (haversineKm_angularDistance me viewer).
  - unfold valid, me; cbn; lra.
  - unfold valid, viewer; cbn; lra.
Defined.

End TwoHaversines.

(** ** The order of the points *)

Section Order.

Lemma addPoint_swap (acc : Vec3) (p q : Point) :
  addPoint (addPoint acc p) q = addPoint (addPoint acc q) p.
Proof.
  unfold addPoint; cbn [x y z]. f_equal; ring.
Qed.

Lemma fold_left_addPoint_perm (l l' : list Point) :
  Permutation l l' ->
  forall acc : Vec3, fold_left addPoint l acc = fold_left addPoint l' acc.
Proof.
  induction 1 as [|p l l' _ IH|p q l|l l' l'' _ IH1 _ IH2]; intros acc.
  - reflexivity.
  - cbn [fold_left]. apply IH.
  - cbn [fold_left]. now rewrite addPoint_swap.
  - now rewrite IH1.
Qed.

Lemma reduceM_widen_perm (c : LatLng) (l l' : list Point) :
  Permutation l l' ->
  forall m : number, reduceM (widen c) l m = reduceM (widen c) l' m.
Proof.
  induction 1 as [|p l l' _ IH|p q l|l l' l'' _ IH1 _ IH2]; intros m.
  - reflexivity.
  - cbn [reduceM]. rewrite widen_value. cbn [bind]. apply IH.
  - cbn [reduceM]. rewrite !widen_value. cbn [bind].
    rewrite !widen_value. cbn [bind].
    f_equal. rewrite <- !Rmax_assoc. f_equal. apply Rmax_comm.
  - now rewrite IH1.
Qed.

Lemma viewForPoints_perm (points points' : list Point) :
  Permutation points points' -> viewForPoints points = viewForPoints points'.
Proof.
  intros Hperm.
  destruct points as [|p [|q l]].
  - apply Permutation_nil in Hperm. now subst.
  - apply Permutation_length_1_inv in Hperm. now subst.
  - pose proof (Permutation_length Hperm) as Hlen.
    destruct points' as [|p' [|q' l']]; [discriminate | discriminate |].
    unfold viewForPoints.
    rewrite (fold_left_addPoint_perm _ _ Hperm).
    destruct (Math_sqrt _) as [magnitude|]; [|reflexivity]. cbn [bind].
    destruct (if Req_dec_T magnitude 0 then _ else _) as [c|]; [|reflexivity].
    cbn [bind]. now rewrite (reduceM_widen_perm c _ _ Hperm).
Qed.

(** C6.  [viewForPoints] does not depend on the order of the points: on a
    list of valid points and on any permutation of it, it returns the same
    center latitude, center longitude and far altitude. *)
Theorem viewForPoints_permutation (points points' : list Point) :
  Forall (fun p : Point => valid p) points ->
  Permutation points points' ->
  exists v : View,
    viewForPoints points = Some v /\ viewForPoints points' = Some v.
Proof.
  intros _ Hperm.
  destruct (viewForPoints_defined points) as (v & Hv).
  exists v. split; [exact Hv|].
  now rewrite <- (viewForPoints_perm _ _ Hperm).
Qed.

Lemma viewForPoints_permutation_witness :
  exists v : View,
    viewForPoints [me; viewer] = Some v /\
    viewForPoints [viewer; me] = Some v.
Proof.
  apply (viewForPoints_permutation [me; viewer] [viewer; me]).
  - repeat constructor; unfold me, viewer; cbn; lra.
  - apply perm_swap.
Defined.

End Order.

(** ** Inverting the sine *)

Section Arcsine.

Lemma asin_gt (u a : R) :
  0 <= u <= 1 -> 0 <= a <= PI / 2 -> sin a < u -> a < asin u.
Proof.
  intros Hu Ha Hlt.
  pose proof (asin_range u Hu) as Hr.
  destruct (Rlt_dec a (asin u)) as [|Hge]; [assumption|].
  exfalso. apply Rnot_lt_le in Hge.
  assert (Hs : sin (asin u) <= sin a) by (apply sin_incr_1; lra).
  rewrite sin_asin in Hs by lra. lra.
Qed.

Lemma asin_lt (u a : R) :
  0 <= u <= 1 -> 0 <= a <= PI / 2 -> u < sin a -> asin u < a.
Proof.
  intros Hu Ha Hlt.
  pose proof (asin_range u Hu) as Hr.
  destruct (Rlt_dec (asin u) a) as [|Hge]; [assumption|].
  exfalso. apply Rnot_lt_le in Hge.
  assert (Hs : sin a <= sin (asin u)) by (apply sin_incr_1; lra).
  rewrite sin_asin in Hs by lra. lra.
Qed.

Lemma lt_sqrt (a h : R) : 0 <= a -> a ^ 2 < h -> a < sqrt h.
Proof.
  intros Ha Hlt.
  rewrite <- (sqrt_pow2 a Ha). apply sqrt_lt_1_alt. split; [nra | exact Hlt].
Qed.

Lemma sqrt_lt (a h : R) : 0 <= a -> 0 <= h < a ^ 2 -> sqrt h < a.
Proof.
  intros Ha Hlt.
  rewrite <- (sqrt_pow2 a Ha). apply sqrt_lt_1_alt. exact Hlt.
Qed.

End Arcsine.

(** ** Two antipodal points *)

Section Antipodal.


Lemma toRad_180 : toRad 180 = PI.
Proof. unfold toRad. field. Qed.






End Antipodal.

(** ** The wrap rule of the longitude *)

Section Wrap.

Lemma rem_360_nonneg (a : number) : 0 <= a -> 0 <= rem a 360 < 360.
Proof.
  intros Ha. unfold rem, trunc.
  assert (Hq : 0 <= a / 360) by lra.
  destruct (Rle_dec 0 (a / 360)) as [_|Hn]; [|tauto].
  pose proof (Zfloor_bound (a / 360)) as [Hl Hu]. lra.
Qed.

Lemma rem_360_neg (a : number) : a < 0 -> -360 < rem a 360 <= 0.
Proof.
  intros Ha. unfold rem, trunc.
  destruct (Rle_dec 0 (a / 360)) as [Hq|_]; [lra|].
  pose proof (Zceil_bound (a / 360)) as [Hl Hu]. lra.
Qed.

(** The wrap rule returns a longitude in [-180, 180) on every number. *)
Lemma wrapLng_range (l : number) : -180 <= wrapLng l < 180.
Proof.
  unfold wrapLng.
  destruct (Rle_dec 0 (l + 180)) as [Hp|Hn].
  - pose proof (rem_360_nonneg _ Hp) as [Hl Hu].
    destruct (Rlt_dec (rem (l + 180) 360 - 180) (-180)); lra.
  - apply Rnot_le_lt in Hn.
    pose proof (rem_360_neg _ Hn) as [Hl Hu].
    destruct (Rlt_dec (rem (l + 180) 360 - 180) (-180)); lra.
Qed.

Lemma rem_360_small (a : number) : 0 <= a < 360 -> rem a 360 = a.
Proof.
  intros [H0 H1]. unfold rem, trunc.
  destruct (Rle_dec 0 (a / 360)) as [_|Hn]; [|lra].
  rewrite (Zfloor_eq 0) by (cbn; lra). cbn. ring.
Qed.

Lemma rem_360_360 : rem 360 360 = 0.
Proof.
  unfold rem, trunc.
  replace (360 / 360) with 1 by field.
  destruct (Rle_dec 0 1) as [_|Hn]; [|lra].
  rewrite (Zfloor_eq 1) by (cbn; lra). cbn. ring.
Qed.

(** The wrap rule leaves the longitudes of [-180, 180) as they are. *)
Lemma wrapLng_id (l : number) : -180 <= l < 180 -> wrapLng l = l.
Proof.
  intros [Hl Hu]. unfold wrapLng.
  rewrite rem_360_small by lra.
  destruct (Rlt_dec (l + 180 - 180) (-180)); lra.
Qed.

(** The wrap rule sends 180 to -180. *)
Lemma wrapLng_180 : wrapLng 180 = -180.
Proof.
  unfold wrapLng.
  replace (180 + 180) with 360 by ring. rewrite rem_360_360.
  destruct (Rlt_dec (0 - 180) (-180)); lra.
Qed.

End Wrap.

(** ** The angle of a vector *)

Section Atan2.

Lemma Math_atan2_range (v u : number) : - PI < Math_atan2 v u <= PI.
Proof.
  pose proof PI_RGT_0 as Hpi. unfold Math_atan2.
  destruct (Rlt_dec 0 u) as [Hu|Hu].
  - pose proof (atan_bound (v / u)). lra.
  - destruct (Rlt_dec u 0) as [Hu'|Hu'].
    + assert (Hinv : / u < 0) by (apply Rinv_lt_0_compat; exact Hu').
      pose proof (atan_bound (v / u)) as [Hl Hh].
      destruct (Rle_dec 0 v) as [Hv|Hv].
      * assert (Hq : v / u <= 0) by (unfold Rdiv; nra).
        assert (atan (v / u) <= 0).
        { destruct Hq as [Hq|Hq].
          - left. rewrite <- atan_0. now apply atan_increasing.
          - rewrite Hq, atan_0. lra. }
        lra.
      * apply Rnot_le_lt in Hv.
        assert (Hq : 0 < v / u) by (unfold Rdiv; nra).
        assert (0 < atan (v / u)).
        { rewrite <- atan_0. now apply atan_increasing. }
        lra.
    + destruct (Rlt_dec 0 v); [lra|].
      destruct (Rlt_dec v 0); lra.
Qed.

Lemma tan_shift_PI (t : R) : cos t <> 0 -> tan (t + PI) = tan t.
Proof.
  intros Hc. unfold tan. rewrite neg_sin, neg_cos. field. exact Hc.
Qed.

(** [Math_atan2] returns the angle of a vector given in polar form, for an
    angle in (-PI, PI]. *)
Lemma Math_atan2_polar (r t : R) :
  0 < r -> - PI < t <= PI -> Math_atan2 (r * sin t) (r * cos t) = t.
Proof.
  intros Hr [Hlo Hhi]. pose proof PI_RGT_0 as Hpi.
  unfold Math_atan2.
  assert (Hquot : cos t <> 0 -> r * sin t / (r * cos t) = tan t).
  { intros Hc. unfold tan. field. split; lra. }
  destruct (Rlt_dec 0 (r * cos t)) as [Hx|Hx].
  - assert (Hc : 0 < cos t) by nra.
    rewrite Hquot by lra. apply atan_tan.
    split.
    + destruct (Rlt_dec (- (PI / 2)) t) as [|Hn]; [assumption|].
      exfalso. apply Rnot_lt_le in Hn.
      assert (cos (- t) <= 0) by (apply cos_le_0; lra).
      rewrite cos_neg in *. lra.
    + destruct (Rlt_dec t (PI / 2)) as [|Hn]; [assumption|].
      exfalso. apply Rnot_lt_le in Hn.
      assert (cos t <= 0) by (apply cos_le_0; lra). lra.
  - destruct (Rlt_dec (r * cos t) 0) as [Hx'|Hx'].
    + assert (Hc : cos t < 0) by nra.
      rewrite Hquot by lra.
      destruct (Rle_dec 0 (r * sin t)) as [Hy|Hy].
      * assert (Hs : 0 <= sin t) by nra.
        assert (Ht0 : 0 <= t).
        { destruct (Rle_dec 0 t) as [|Hn]; [assumption|].
          exfalso. apply Rnot_le_lt in Hn.
          assert (sin t < 0) by (apply sin_lt_0_var; lra). lra. }
        assert (Ht1 : PI / 2 < t).
        { destruct (Rlt_dec (PI / 2) t) as [|Hn]; [assumption|].
          exfalso. apply Rnot_lt_le in Hn.
          assert (0 <= cos t) by (apply cos_ge_0; lra). lra. }
        replace t with (t - PI + PI) at 1 by ring.
        rewrite tan_shift_PI.
        -- rewrite atan_tan by lra. ring.
        -- replace (t - PI) with (- (PI - t)) by ring.
           rewrite cos_neg. replace (PI - t) with (- t + PI) by ring.
           rewrite neg_cos, cos_neg. lra.
      * apply Rnot_le_lt in Hy.
        assert (Hs : sin t < 0) by nra.
        assert (Ht0 : t < 0).
        { destruct (Rlt_dec t 0) as [|Hn]; [assumption|].
          exfalso. apply Rnot_lt_le in Hn.
          assert (0 <= sin t) by (apply sin_ge_0; lra). lra. }
        assert (Ht1 : t < - (PI / 2)).
        { destruct (Rlt_dec t (- (PI / 2))) as [|Hn]; [assumption|].
          exfalso. apply Rnot_lt_le in Hn.
          assert (0 <= cos t) by (apply cos_ge_0; lra). lra. }
        rewrite <- (tan_shift_PI t) by lra.
        rewrite atan_tan by lra. ring.
    + assert (Hc : cos t = 0) by nra.
      pose proof (sin2_cos2 t) as Hsc. unfold Rsqr in Hsc.
      destruct (Rlt_dec 0 (r * sin t)) as [Hy|Hy].
      * assert (Hs : 0 < sin t) by nra.
        destruct (Rtotal_order t (PI / 2)) as [Hlt|[Heq|Hgt]].
        -- exfalso.
           destruct (Rlt_dec (- (PI / 2)) t) as [Hin|Hn].
           ++ assert (0 < cos t) by (apply cos_gt_0; lra). lra.
           ++ apply Rnot_lt_le in Hn.
              assert (sin t < 0) by (apply sin_lt_0_var; lra). lra.
        -- now symmetry.
        -- exfalso. assert (cos t < 0) by (apply cos_lt_0; lra). lra.
      * destruct (Rlt_dec (r * sin t) 0) as [Hy'|Hy'].
        -- assert (Hs : sin t < 0) by nra.
           destruct (Rtotal_order t (- (PI / 2))) as [Hlt|[Heq|Hgt]].
           ++ exfalso.
              assert (cos (- t) < 0) by (apply cos_lt_0; lra).
              rewrite cos_neg in *. lra.
           ++ now symmetry.
           ++ exfalso.
              destruct (Rlt_dec t (PI / 2)) as [Hin|Hn].
              ** assert (0 < cos t) by (apply cos_gt_0; lra). lra.
              ** apply Rnot_lt_le in Hn.
                 assert (0 <= sin t) by (apply sin_ge_0; lra). lra.
        -- exfalso. assert (sin t = 0) by nra. nra.
Qed.

End Atan2.

(** ** From a point to its unit vector and back *)

Section RoundTrip.

Lemma toDeg_toRad (v : number) : toDeg (toRad v) = v.
Proof.
  unfold toDeg, toRad. field. apply PI_neq0.
Qed.

Lemma toDeg_PI : toDeg PI = 180.
Proof.
  unfold toDeg. field. apply PI_neq0.
Qed.

Lemma toRad_lt (u v : number) : u < v -> toRad u < toRad v.
Proof.
  intros Huv. unfold toRad. pose proof PI_RGT_0. nra.
Qed.

Lemma toRad_90 : toRad 90 = PI / 2.
Proof. unfold toRad. field. Qed.

Lemma toRad_opp (v : number) : toRad (- v) = - toRad v.
Proof. unfold toRad. field. Qed.

Lemma toRad_m180 : toRad (-180) = - PI.
Proof. unfold toRad. field. Qed.

(** The angle of the vector [(-1, 0)] is PI. *)
Lemma Math_atan2_0_neg (c : number) :
  0 < c -> Math_atan2 (c * sin PI) (c * cos PI) = PI.
Proof.
  intros Hc. apply Math_atan2_polar; [exact Hc|].
  pose proof PI_RGT_0. lra.
Qed.

(** C5, as the code has it.  The longitude returned by
    [latLngFromCartesian] lies in [-180, 180): at least -180 and strictly
    less than 180, for every input vector, zero or not. *)
Theorem latLngFromCartesian_lng_range (v : Vec3) :
  exists r : LatLng,
    latLngFromCartesian v = Some r /\ -180 <= lng r < 180.
Proof.
  rewrite latLngFromCartesian_value. eexists. split; [reflexivity|].
  cbn [lng]. apply wrapLng_range.
Qed.

(** C5 fails as stated: the vector (-1, 0, 0) is not zero and its
    longitude is returned as -180, which is not in (-180, 180]. *)
Lemma latLngFromCartesian_lng_minus_180 :
  {| x := -1; y := 0; z := 0 |} <> {| x := 0; y := 0; z := 0 |} /\
  exists r : LatLng,
    latLngFromCartesian {| x := -1; y := 0; z := 0 |} = Some r /\
    lng r = -180 /\
    ~ (-180 < lng r <= 180).
Proof.
  split.
  - intros H. apply (f_equal x) in H. cbn in H. lra.
  - rewrite latLngFromCartesian_value. eexists. split; [reflexivity|].
    cbn [lng x y z].
    assert (Hl : wrapLng (toDeg (Math_atan2 0 (-1))) = -180).
    { replace (Math_atan2 0 (-1))
        with (Math_atan2 (1 * sin PI) (1 * cos PI))
        by (rewrite sin_PI, cos_PI; f_equal; ring).
      rewrite Math_atan2_0_neg by lra.
      rewrite toDeg_PI. apply wrapLng_180. }
    rewrite Hl. split; [reflexivity | lra].
Qed.

(** The round trip away from the poles; the longitude 180 comes back as
    -180. *)
Lemma roundtrip_value (p : LatLng) :
  -90 < lat p < 90 ->
  -180 <= lng p <= 180 ->
  latLngFromCartesian (cartesianFromLatLng p) =
  Some {| lat := lat p;
          lng := if Req_dec_T (lng p) 180 then -180 else lng p |}.
Proof.
  intros [Hlat1 Hlat2] [Hlng1 Hlng2]. pose proof PI_RGT_0 as Hpi.
  rewrite latLngFromCartesian_value.
  unfold cartesianFromLatLng. cbn [x y z].
  set (phi := toRad (lat p)). set (theta := toRad (lng p)).
  assert (Hphi : - (PI / 2) < phi < PI / 2).
  { unfold phi. rewrite <- toRad_90, <- toRad_opp.
    split; apply toRad_lt; lra. }
  assert (Hc : 0 < cos phi) by (apply cos_gt_0; lra).
  assert (Hhyp : sqrt (cos phi * cos theta * (cos phi * cos theta)
                       + cos phi * sin theta * (cos phi * sin theta))
                 = cos phi).
  { pose proof (sin2_cos2 theta) as Hsc. unfold Rsqr in Hsc.
    replace (cos phi * cos theta * (cos phi * cos theta)
             + cos phi * sin theta * (cos phi * sin theta))
      with (cos phi * cos phi
            * (sin theta * sin theta + cos theta * cos theta)) by ring.
    rewrite Hsc, Rmult_1_r. apply sqrt_square. lra. }
  rewrite Hhyp.
  assert (Hlat : toDeg (Math_atan2 (sin phi) (cos phi)) = lat p).
  { replace (Math_atan2 (sin phi) (cos phi))
      with (Math_atan2 (1 * sin phi) (1 * cos phi))
      by (f_equal; ring).
    rewrite Math_atan2_polar by lra.
    apply toDeg_toRad. }
  rewrite Hlat. do 2 f_equal.
  destruct (Req_dec_T (lng p) 180) as [H180|Hn180].
  - unfold theta. rewrite H180, toRad_180.
    rewrite Math_atan2_0_neg by exact Hc.
    rewrite toDeg_PI. apply wrapLng_180.
  - destruct (Req_dec_T (lng p) (-180)) as [Hm180|Hnm180].
    + unfold theta. rewrite Hm180, toRad_m180.
      rewrite sin_neg, cos_neg.
      replace (cos phi * - sin PI) with (cos phi * sin PI)
        by (rewrite sin_PI; ring).
      rewrite Math_atan2_0_neg by exact Hc.
      rewrite toDeg_PI. apply wrapLng_180.
    + assert (Htheta : - PI < theta < PI).
      { unfold theta. rewrite <- toRad_180 at 2. rewrite <- toRad_m180.
        split; apply toRad_lt; lra. }
      rewrite Math_atan2_polar by lra.
      unfold theta. rewrite toDeg_toRad. apply wrapLng_id. lra.
Qed.

(** C4, as the code has it.  For a point with latitude in (-90, 90) and
    longitude in [-180, 180], [latLngFromCartesian (cartesianFromLatLng p)]
    reproduces the latitude exactly, and reproduces the longitude exactly
    unless it is 180, for which -180 is returned: the two conversions are
    mutual inverses for the longitudes of [-180, 180). *)
Theorem latLngFromCartesian_cartesianFromLatLng (p : LatLng) :
  -90 < lat p < 90 ->
  -180 <= lng p <= 180 ->
  latLngFromCartesian (cartesianFromLatLng p) =
  Some {| lat := lat p;
          lng := if Req_dec_T (lng p) 180 then -180 else lng p |}.
Proof.
  exact (roundtrip_value p).
Qed.

Lemma latLngFromCartesian_cartesianFromLatLng_witness :
  latLngFromCartesian (cartesianFromLatLng me) =
  Some {| lat := lat me;
          lng := if Req_dec_T (lng me) 180 then -180 else lng me |}.
Proof.
  apply (latLngFromCartesian_cartesianFromLatLng me).
  - unfold me; cbn; lra.
  - unfold me; cbn; lra.
Defined.

(** C4 fails as stated: the point (0, 180) is in the stated domain and
    comes back as (0, -180). *)
Lemma roundtrip_lng_180 :
  (-90 < lat (mkLatLng 0 180) < 90 /\ -180 <= lng (mkLatLng 0 180) <= 180) /\
  latLngFromCartesian (cartesianFromLatLng (mkLatLng 0 180))
    = Some (mkLatLng 0 (-180)) /\
  latLngFromCartesian (cartesianFromLatLng (mkLatLng 0 180))
    <> Some (mkLatLng 0 180).
Proof.
  assert (Hrt : latLngFromCartesian (cartesianFromLatLng (mkLatLng 0 180))
                = Some (mkLatLng 0 (-180))).
  { rewrite roundtrip_value by (cbn; lra).
    cbn [lat lng].
    destruct (Req_dec_T 180 180) as [_|Hn]; [reflexivity | now elim Hn]. }
  split; [cbn; lra|]. split; [exact Hrt|].
  rewrite Hrt. intros H. injection H as H. lra.
Qed.

End RoundTrip.

(** ** The distance between the two points of the component *)

Section Distance.

(** Seven and eight terms of the series of [PI_2_3_7_ineq]. *)
Lemma PI_enclosure : 3.1415926 < PI < 3.1415927.
Proof.
  pose proof (PI_2_3_7_ineq 3) as [Hl Hu].
  unfold tg_alt, PI_2_3_7_tg, Ratan_seq in Hl, Hu.
  cbn [sum_f_R0 Nat.mul Nat.add] in Hl, Hu.
  rewrite !INR_IZR_INZ in Hl, Hu.
  cbn [Z.of_nat Pos.of_succ_nat Pos.succ Nat.mul Nat.add] in Hl, Hu.
  rewrite ?INR_IZR_INZ in Hl. cbn [Z.of_nat Pos.of_succ_nat Pos.succ] in Hl.
  split; lra.
Qed.

Lemma INR_fact (n : nat) (k : Z) :
  Z.of_nat (fact n) = k -> INR (fact n) = IZR k.
Proof. intros <-. apply INR_IZR_INZ. Qed.

Lemma sin_lb_poly (a : R) :
  sin_lb a = a - a ^ 3 / 6 + a ^ 5 / 120 - a ^ 7 / 5040.
Proof.
  unfold sin_lb, sin_approx, sin_term. cbn [sum_f_R0 Nat.mul Nat.add].
  rewrite (INR_fact 1 1), (INR_fact 3 6), (INR_fact 5 120), (INR_fact 7 5040)
    by (vm_compute; reflexivity).
  field.
Qed.

Lemma sin_ub_poly (a : R) :
  sin_ub a = a - a ^ 3 / 6 + a ^ 5 / 120 - a ^ 7 / 5040 + a ^ 9 / 362880.
Proof.
  unfold sin_ub, sin_approx, sin_term. cbn [sum_f_R0 Nat.mul Nat.add].
  rewrite (INR_fact 1 1), (INR_fact 3 6), (INR_fact 5 120), (INR_fact 7 5040),
    (INR_fact 9 362880) by (vm_compute; reflexivity).
  field.
Qed.

Lemma cos_lb_poly (a : R) :
  cos_lb a = 1 - a ^ 2 / 2 + a ^ 4 / 24 - a ^ 6 / 720.
Proof.
  unfold cos_lb, cos_approx, cos_term. cbn [sum_f_R0 Nat.mul Nat.add].
  rewrite (INR_fact 0 1), (INR_fact 2 2), (INR_fact 4 24), (INR_fact 6 720)
    by (vm_compute; reflexivity).
  field.
Qed.

Lemma cos_ub_poly (a : R) :
  cos_ub a = 1 - a ^ 2 / 2 + a ^ 4 / 24 - a ^ 6 / 720 + a ^ 8 / 40320.
Proof.
  unfold cos_ub, cos_approx, cos_term. cbn [sum_f_R0 Nat.mul Nat.add].
  rewrite (INR_fact 0 1), (INR_fact 2 2), (INR_fact 4 24), (INR_fact 6 720),
    (INR_fact 8 40320) by (vm_compute; reflexivity).
  field.
Qed.

(** The sine of an angle of the first quadrant between two numbers. *)
Lemma sin_enclosure (a lo hi : R) :
  0 <= lo -> lo <= a -> a <= hi -> hi <= PI / 2 ->
  sin_lb lo <= sin a <= sin_ub hi.
Proof.
  intros H0 Hlo Hhi Hq. pose proof PI_RGT_0 as Hpi.
  assert (Hl : sin_lb lo <= sin lo) by (apply SIN; lra).
  assert (Hu : sin hi <= sin_ub hi) by (apply SIN; lra).
  assert (sin lo <= sin a) by (apply sin_incr_1; lra).
  assert (sin a <= sin hi) by (apply sin_incr_1; lra).
  lra.
Qed.

(** The cosine of an angle of the first quadrant between two numbers. *)
Lemma cos_enclosure (a lo hi : R) :
  0 <= lo -> lo <= a -> a <= hi -> hi <= PI / 2 ->
  cos_lb hi <= cos a <= cos_ub lo.
Proof.
  intros H0 Hlo Hhi Hq. pose proof PI_RGT_0 as Hpi.
  assert (Hl : cos_lb hi <= cos hi) by (apply COS; lra).
  assert (Hu : cos lo <= cos_ub lo) by (apply COS; lra).
  assert (cos hi <= cos a) by (apply cos_decr_1; lra).
  assert (cos a <= cos lo) by (apply cos_decr_1; lra).
  lra.
Qed.

Lemma toRad_enclosure (k : number) :
  0 <= k ->
  0 <= k * 3.1415926 / 180 <= toRad k /\ toRad k <= k * 3.1415927 / 180.
Proof.
  intros Hk. pose proof PI_enclosure as [Hl Hu]. unfold toRad. nra.
Qed.

(** Half the difference of the two latitudes, in degrees: 4.02005. *)
Lemma sin_half_dLat : 0.0701055 <= sin (toRad 4.02005) <= 0.0701056.
Proof.
  pose proof PI_enclosure as [Hl Hu].
  pose proof (toRad_enclosure 4.02005) as [[H0 H1] H2]; [lra|].
  pose proof (sin_enclosure (toRad 4.02005) _ _ H0 H1 H2) as [Hs1 Hs2];
    [lra|].
  rewrite sin_lb_poly in Hs1. rewrite sin_ub_poly in Hs2. lra.
Qed.

(** Half the difference of the two longitudes, in degrees: 69.20065. *)
Lemma sin_half_dLng : 0.9348148 <= sin (toRad 69.20065) <= 0.93483.
Proof.
  pose proof PI_enclosure as [Hl Hu].
  pose proof (toRad_enclosure 69.20065) as [[H0 H1] H2]; [lra|].
  pose proof (sin_enclosure (toRad 69.20065) _ _ H0 H1 H2) as [Hs1 Hs2];
    [lra|].
  rewrite sin_lb_poly in Hs1. rewrite sin_ub_poly in Hs2. lra.
Qed.

Lemma cos_lat_me : 0.6969732 <= cos (toRad 45.815) <= 0.6969775.
Proof.
  pose proof PI_enclosure as [Hl Hu].
  pose proof (toRad_enclosure 45.815) as [[H0 H1] H2]; [lra|].
  pose proof (cos_enclosure (toRad 45.815) _ _ H0 H1 H2) as [Hc1 Hc2];
    [lra|].
  rewrite cos_lb_poly in Hc1. rewrite cos_ub_poly in Hc2. lra.
Qed.

Lemma cos_lat_viewer : 0.7904225 <= cos (toRad 37.7749) <= 0.7904235.
Proof.
  pose proof PI_enclosure as [Hl Hu].
  pose proof (toRad_enclosure 37.7749) as [[H0 H1] H2]; [lra|].
  pose proof (cos_enclosure (toRad 37.7749) _ _ H0 H1 H2) as [Hc1 Hc2];
    [lra|].
  rewrite cos_lb_poly in Hc1. rewrite cos_ub_poly in Hc2. lra.
Qed.

Lemma haversine_me_viewer_eq :
  haversine me viewer =
  sin (toRad 4.02005) ^ 2
  + cos (toRad 45.815) * cos (toRad 37.7749) * sin (toRad 69.20065) ^ 2.
Proof.
  unfold haversine, me, viewer. cbn [lat lng coords].
  replace ((toRad 37.7749 - toRad 45.815) / 2) with (- toRad 4.02005)
    by (unfold toRad; lra).
  replace (toRad (-122.4194 - 15.9819) / 2) with (- toRad 69.20065)
    by (unfold toRad; lra).
  rewrite !sin_neg. ring.
Qed.

Lemma mult_enclosure (u v ul uh vl vh : R) :
  0 <= ul -> ul <= u <= uh -> 0 <= vl -> vl <= v <= vh ->
  ul * vl <= u * v <= uh * vh.
Proof.
  intros Hul [Hu1 Hu2] Hvl [Hv1 Hv2]. split; nra.
Qed.

Lemma haversine_me_viewer :
  0.4863374 <= haversine me viewer <= 0.4863567.
Proof.
  rewrite haversine_me_viewer_eq.
  pose proof sin_half_dLat as HA. pose proof sin_half_dLng as HD.
  pose proof cos_lat_me as HB. pose proof cos_lat_viewer as HC.
  assert (HA2 : 0.0701055 * 0.0701055 <= sin (toRad 4.02005) ^ 2
                <= 0.0701056 * 0.0701056).
  { replace (sin (toRad 4.02005) ^ 2)
      with (sin (toRad 4.02005) * sin (toRad 4.02005)) by ring.
    apply mult_enclosure; lra. }
  assert (HD2 : 0.9348148 * 0.9348148 <= sin (toRad 69.20065) ^ 2
                <= 0.93483 * 0.93483).
  { replace (sin (toRad 69.20065) ^ 2)
      with (sin (toRad 69.20065) * sin (toRad 69.20065)) by ring.
    apply mult_enclosure; lra. }
  assert (HBC : 0.6969732 * 0.7904225
                <= cos (toRad 45.815) * cos (toRad 37.7749)
                <= 0.6969775 * 0.7904235)
    by (apply mult_enclosure; lra).
  assert (HBCD : 0.6969732 * 0.7904225 * (0.9348148 * 0.9348148)
                 <= cos (toRad 45.815) * cos (toRad 37.7749)
                    * sin (toRad 69.20065) ^ 2
                 <= 0.6969775 * 0.7904235 * (0.93483 * 0.93483))
    by (apply mult_enclosure; lra).
  lra.
Qed.

(** The distance of the component is between 9833 km and 9835 km. *)
Lemma haversineKm_me_viewer :
  exists d : number, Geo.haversineKm me viewer = Some d /\ 9833 < d < 9835.
Proof.
  rewrite haversineKm_value. eexists. split; [reflexivity|].
  pose proof PI_enclosure as [Hpl Hpu].
  pose proof haversine_me_viewer as [Hhl Hhu].
  set (h := haversine me viewer) in *.
  assert (Hr : 0 <= sqrt h <= 1).
  { split; [apply sqrt_pos | apply sqrt_le_1; lra]. }
  assert (Hlo : 9833 / 12742 < asin (sqrt h)).
  { apply asin_gt; [exact Hr | lra |].
    pose proof (SIN (9833 / 12742)) as [_ Hu]; [lra | lra |].
    rewrite sin_ub_poly in Hu.
    assert (0 <= sin (9833 / 12742)) by (apply sin_ge_0; lra).
    apply lt_sqrt; [assumption|]. nra. }
  assert (Hhi : asin (sqrt h) < 9835 / 12742).
  { apply asin_lt; [exact Hr | lra |].
    pose proof (SIN (9835 / 12742)) as [Hl _]; [lra | lra |].
    rewrite sin_lb_poly in Hl.
    apply sqrt_lt; [lra|]. split; [lra | nra]. }
  lra.
Qed.

(** C8, as the code has it.  For the two points of the component,
    (45.815, 15.9819) and (37.7749, -122.4194), [haversineKm] returns a
    distance of approximately 9,834 km: it lies between 9833 km and
    9835 km. *)
Theorem haversineKm_default_points :
  exists d : number, Geo.haversineKm me viewer = Some d /\ 9833 < d < 9835.
Proof.
  exact haversineKm_me_viewer.
Qed.

(** C8 fails as stated: the distance is below 9850 km, so it is not within
    50 km of 9,900 km. *)
Lemma haversineKm_default_points_below_9850 :
  exists d : number,
    Geo.haversineKm me viewer = Some d /\ ~ (9850 <= d <= 9950).
Proof.
  destruct haversineKm_me_viewer as (d & Hd & Hl & Hu).
  exists d. split; [exact Hd | lra].
Qed.

End Distance.

(** ** More on the wrap rule *)

Section WrapMore.

(** X1.  On every number, [wrapLng] returns the longitude of [-180, 180)
    that differs from its argument by a whole number of turns. *)
Theorem wrapLng_congruent (l : number) :
  -180 <= wrapLng l < 180 /\
  exists k : Z, wrapLng l = l + 360 * IZR k.
Proof.
  split; [apply wrapLng_range|].
  unfold wrapLng, rem.
  set (t := trunc ((l + 180) / 360)).
  destruct (Rlt_dec (l + 180 - 360 * IZR t - 180) (-180)).
  - exists (1 - t)%Z. rewrite minus_IZR. ring.
  - exists (- t)%Z. rewrite opp_IZR. ring.
Qed.

(** X2.  [wrapLng] leaves a longitude as it is exactly when it lies in
    [-180, 180), and wrapping twice is wrapping once. *)
Theorem wrapLng_fixed_points (l : number) :
  (wrapLng l = l <-> -180 <= l < 180) /\
  wrapLng (wrapLng l) = wrapLng l.
Proof.
  split.
  - split.
    + intros H. rewrite <- H. apply wrapLng_range.
    + apply wrapLng_id.
  - apply wrapLng_id, wrapLng_range.
Qed.

End WrapMore.

(** ** Unit vectors and the angle between them *)

Section Sphere.

(** The scalar product of two vectors. *)
Lemma cos_toRad_diff (u v : number) :
  cos (toRad (v - u)) =
  cos (toRad u) * cos (toRad v) + sin (toRad u) * sin (toRad v).
Proof.
  replace (toRad (v - u)) with (toRad v - toRad u) by (unfold toRad; field).
  rewrite cos_minus. ring.
Qed.

Lemma cartesian_unit (p : LatLng) :
  let v := cartesianFromLatLng p in
  x v * x v + y v * y v + z v * z v = 1.
Proof.
  cbn. pose proof (sin2_cos2 (toRad (lat p))) as Hp.
  pose proof (sin2_cos2 (toRad (lng p))) as Ht.
  unfold Rsqr in Hp, Ht. nra.
Qed.

(** X3.  [cartesianFromLatLng] returns a vector of length one, for every
    latitude and longitude. *)
Theorem cartesianFromLatLng_unit (p : LatLng) :
  let v := cartesianFromLatLng p in
  x v * x v + y v * y v + z v * z v = 1.
Proof.
  exact (cartesian_unit p).
Qed.

Lemma haversine_sym (a b : LatLng) : haversine a b = haversine b a.
Proof.
  unfold haversine.
  replace ((toRad (lat a) - toRad (lat b)) / 2)
    with (- ((toRad (lat b) - toRad (lat a)) / 2)) by field.
  replace (toRad (lng a - lng b) / 2)
    with (- (toRad (lng b - lng a) / 2)) by (unfold toRad; field).
  rewrite !sin_neg. ring.
Qed.

(** X4.  [angularDistance] is symmetric. *)
Theorem angularDistance_sym (a b : LatLng) :
  angularDistance a b = angularDistance b a.
Proof.
  rewrite !angularDistance_value. now rewrite haversine_sym.
Qed.

(** The haversine term is half of one minus the scalar product of the two
    unit vectors. *)
Lemma haversine_dot (a b : LatLng) :
  let u := cartesianFromLatLng a in
  let v := cartesianFromLatLng b in
  1 - 2 * haversine a b = x u * x v + y u * y v + z u * z v.
Proof.
  cbn. unfold haversine. rewrite !sin_half_sq.
  rewrite cos_toRad_diff, cos_minus.
  field.
Qed.

Lemma cos_angle (h : R) :
  0 <= h <= 1 -> cos (2 * asin (Rmin 1 (sqrt h))) = 1 - 2 * h.
Proof.
  intros Hh.
  rewrite Rmin_right by (apply sqrt_le_1; exact Hh).
  rewrite cos_2a_sin.
  rewrite sin_asin.
  - rewrite Rmult_assoc, sqrt_sqrt by lra. reflexivity.
  - pose proof (sqrt_pos h). pose proof (sqrt_le_1 h Hh). lra.
Qed.

(** X5.  The angular distance of two points is the angle of [0, PI] whose
    cosine is the scalar product of their unit vectors. *)
Theorem angularDistance_dot (a b : LatLng) :
  let u := cartesianFromLatLng a in
  let v := cartesianFromLatLng b in
  exists d : number,
    angularDistance a b = Some d /\
    0 <= d <= PI /\
    cos d = x u * x v + y u * y v + z u * z v.
Proof.
  intros u v. eexists. split; [apply angularDistance_value|].
  split; [apply angle_range|].
  rewrite cos_angle by apply haversine_range.
  apply haversine_dot.
Qed.

Lemma angle_0_iff (h : R) :
  0 <= h <= 1 -> (2 * asin (Rmin 1 (sqrt h)) = 0 <-> h = 0).
Proof.
  intros Hh. split.
  - intros Hd. pose proof (cos_angle h Hh) as Hc.
    rewrite Hd, cos_0 in Hc. lra.
  - intros ->. rewrite sqrt_0, Rmin_right by lra. rewrite asin_0. ring.
Qed.

Lemma angle_PI_iff (h : R) :
  0 <= h <= 1 -> (2 * asin (Rmin 1 (sqrt h)) = PI <-> h = 1).
Proof.
  intros Hh. split.
  - intros Hd. pose proof (cos_angle h Hh) as Hc.
    rewrite Hd, cos_PI in Hc. lra.
  - intros ->. rewrite sqrt_1, Rmin_right by lra. rewrite asin_1. field.
Qed.

Lemma sum_sq_0 (a b c : R) :
  a * a + b * b + c * c = 0 -> a = 0 /\ b = 0 /\ c = 0.
Proof.
  intros H.
  assert (Ha : a * a = 0) by nra.
  assert (Hb : b * b = 0) by nra.
  assert (Hc : c * c = 0) by nra.
  apply Rsqr_0_uniq in Ha, Hb, Hc. tauto.
Qed.

(** X6.  The angular distance is zero exactly when the two points have the
    same unit vector, and PI exactly when their unit vectors are
    opposite. *)
Theorem angularDistance_extremes (a b : LatLng) :
  let u := cartesianFromLatLng a in
  let v := cartesianFromLatLng b in
  (angularDistance a b = Some 0 <-> u = v) /\
  (angularDistance a b = Some PI <->
   x v = - x u /\ y v = - y u /\ z v = - z u).
Proof.
  intros u v.
  pose proof (haversine_range a b) as Hh.
  pose proof (haversine_dot a b) as Hdot. cbn zeta in Hdot.
  fold u v in Hdot.
  pose proof (cartesian_unit a) as Hu.
  pose proof (cartesian_unit b) as Hv.
  cbn zeta in Hu, Hv. fold u in Hu. fold v in Hv.
  rewrite angularDistance_value. split; split.
  - intros H. injection H as H. apply (proj1 (angle_0_iff _ Hh)) in H.
    destruct (sum_sq_0 (x u - x v) (y u - y v) (z u - z v))
      as (Hx & Hy & Hz); [nra|].
    destruct u as [ux uy uz], v as [vx vy vz]; cbn in Hx, Hy, Hz.
    f_equal; lra.
  - intros Huv. f_equal. apply (proj2 (angle_0_iff _ Hh)).
    rewrite <- Huv in Hdot. lra.
  - intros H. injection H as H. apply (proj1 (angle_PI_iff _ Hh)) in H.
    destruct (sum_sq_0 (x u + x v) (y u + y v) (z u + z v))
      as (Hx & Hy & Hz); [nra|].
    repeat split; lra.
  - intros (Hx & Hy & Hz). f_equal. apply (proj2 (angle_PI_iff _ Hh)).
    rewrite Hx, Hy, Hz in Hdot. nra.
Qed.

End Sphere.

(** ** From a vector to its point *)

Section FromCartesian.

Lemma atan_polar_pos (u v : R) :
  0 < u ->
  sqrt (u * u + v * v) * cos (atan (v / u)) = u /\
  sqrt (u * u + v * v) * sin (atan (v / u)) = v.
Proof.
  intros Hu.
  set (t := v / u).
  assert (Hpos : 0 < 1 + t²) by (unfold Rsqr; nra).
  assert (Hs : 0 < sqrt (1 + t²)) by (apply sqrt_lt_R0; exact Hpos).
  assert (Hr : sqrt (u * u + v * v) = u * sqrt (1 + t²)).
  { apply sqrt_lem_1.
    - nra.
    - nra.
    - replace (u * sqrt (1 + t²) * (u * sqrt (1 + t²)))
        with (u * u * (sqrt (1 + t²) * sqrt (1 + t²))) by ring.
      rewrite sqrt_sqrt by lra. unfold t, Rsqr. field. lra. }
  rewrite Hr, cos_atan, sin_atan. fold t.
  split.
  - field. lra.
  - unfold t at 2. field. split; lra.
Qed.

Lemma cos_minus_PI (t : R) : cos (t - PI) = - cos t.
Proof.
  replace t with (t - PI + PI) at 2 by ring. rewrite neg_cos. ring.
Qed.

Lemma sin_minus_PI (t : R) : sin (t - PI) = - sin t.
Proof.
  replace t with (t - PI + PI) at 2 by ring. rewrite neg_sin. ring.
Qed.

(** [Math_atan2 v u] is an angle of the vector [(u, v)]. *)
Lemma Math_atan2_polar_inv (v u : number) :
  sqrt (u * u + v * v) * cos (Math_atan2 v u) = u /\
  sqrt (u * u + v * v) * sin (Math_atan2 v u) = v.
Proof.
  unfold Math_atan2.
  destruct (Rlt_dec 0 u) as [Hu|Hu].
  - apply atan_polar_pos. exact Hu.
  - destruct (Rlt_dec u 0) as [Hu'|Hu'].
    + assert (Hm : 0 < - u) by lra.
      destruct (atan_polar_pos (- u) (- v) Hm) as [Hc Hs].
      replace (- u * - u + - v * - v) with (u * u + v * v) in Hc, Hs by ring.
      replace (- v / - u) with (v / u) in Hc, Hs by (field; lra).
      destruct (Rle_dec 0 v).
      * rewrite neg_cos, neg_sin. split; lra.
      * rewrite cos_minus_PI, sin_minus_PI. split; lra.
    + assert (Hz : u = 0) by lra. subst u.
      replace (0 * 0 + v * v) with (v * v) by ring.
      destruct (Rlt_dec 0 v) as [Hv|Hv].
      * rewrite sqrt_square by lra. rewrite cos_PI2, sin_PI2. split; ring.
      * destruct (Rlt_dec v 0) as [Hv'|Hv'].
        -- replace (v * v) with (- v * - v) by ring.
           rewrite sqrt_square by lra.
           rewrite cos_neg, sin_neg, cos_PI2, sin_PI2. split; ring.
        -- assert (Hv0 : v = 0) by lra. subst v.
           replace (0 * 0) with 0 by ring.
           rewrite sqrt_0, cos_0, sin_0. split; ring.
Qed.

(** With a divisor that is not negative the angle is in the right half
    plane. *)
Lemma Math_atan2_right (v u : number) :
  0 <= u -> - (PI / 2) <= Math_atan2 v u <= PI / 2.
Proof.
  intros Hu. pose proof PI_RGT_0 as Hpi. unfold Math_atan2.
  destruct (Rlt_dec 0 u).
  - pose proof (atan_bound (v / u)). lra.
  - destruct (Rlt_dec u 0); [lra|].
    destruct (Rlt_dec 0 v); [lra|].
    destruct (Rlt_dec v 0); lra.
Qed.

Lemma toDeg_le (u v : number) : u <= v -> toDeg u <= toDeg v.
Proof.
  intros Huv. unfold toDeg. pose proof PI_RGT_0 as Hpi.
  apply Rmult_le_compat_r; [left; now apply Rinv_0_lt_compat | lra].
Qed.

Lemma toDeg_PI2 : toDeg (PI / 2) = 90.
Proof. unfold toDeg. field. apply PI_neq0. Qed.

Lemma toDeg_opp (v : number) : toDeg (- v) = - toDeg v.
Proof. unfold toDeg. field. apply PI_neq0. Qed.

Lemma toRad_toDeg (v : number) : toRad (toDeg v) = v.
Proof. unfold toRad, toDeg. field. apply PI_neq0. Qed.

(** X7.  On every vector, zero or not, [latLngFromCartesian] returns a
    latitude in [-90, 90] and a longitude in [-180, 180): a point of the
    data model. *)
Theorem latLngFromCartesian_valid (v : Vec3) :
  exists r : LatLng,
    latLngFromCartesian v = Some r /\
    -90 <= lat r <= 90 /\ -180 <= lng r < 180 /\ valid r.
Proof.
  rewrite latLngFromCartesian_value. eexists. split; [reflexivity|].
  cbn [lat lng].
  pose proof (Math_atan2_right (z v) (sqrt (x v * x v + y v * y v))
                (sqrt_pos _)) as [Hl Hu].
  apply toDeg_le in Hl, Hu. rewrite toDeg_opp in Hl.
  rewrite toDeg_PI2 in Hl, Hu.
  pose proof (wrapLng_range (toDeg (Math_atan2 (y v) (x v)))) as Hw.
  unfold valid. cbn [lat lng]. lra.
Qed.

Lemma Math_atan2_scale (k v u : number) :
  0 < k -> Math_atan2 (k * v) (k * u) = Math_atan2 v u.
Proof.
  intros Hk. unfold Math_atan2.
  assert (Hq : u <> 0 -> k * v / (k * u) = v / u)
    by (intros Hu; field; split; lra).
  destruct (Rlt_dec 0 (k * u)) as [H1|H1];
    destruct (Rlt_dec 0 u) as [H2|H2]; try (exfalso; nra).
  - now rewrite Hq by lra.
  - destruct (Rlt_dec (k * u) 0) as [H3|H3];
      destruct (Rlt_dec u 0) as [H4|H4]; try (exfalso; nra).
    + rewrite Hq by lra.
      destruct (Rle_dec 0 (k * v)); destruct (Rle_dec 0 v);
        try (exfalso; nra); reflexivity.
    + destruct (Rlt_dec 0 (k * v)); destruct (Rlt_dec 0 v);
        try (exfalso; nra); [reflexivity|].
      destruct (Rlt_dec (k * v) 0); destruct (Rlt_dec v 0);
        try (exfalso; nra); reflexivity.
Qed.

Lemma sqrt_scale (k u v : R) :
  0 < k -> sqrt (k * u * (k * u) + k * v * (k * v)) = k * sqrt (u * u + v * v).
Proof.
  intros Hk.
  replace (k * u * (k * u) + k * v * (k * v))
    with (k * k * (u * u + v * v)) by ring.
  rewrite sqrt_mult by nra. now rewrite sqrt_square by lra.
Qed.

(** X8.  [latLngFromCartesian] depends on the direction of the vector only:
    a vector and its positive multiples have the same point. *)
Theorem latLngFromCartesian_scale (k : number) (v : Vec3) :
  0 < k ->
  latLngFromCartesian {| x := k * x v; y := k * y v; z := k * z v |} =
  latLngFromCartesian v.
Proof.
  intros Hk. rewrite !latLngFromCartesian_value. cbn [x y z].
  rewrite sqrt_scale by exact Hk.
  now rewrite !Math_atan2_scale by exact Hk.
Qed.

Lemma latLngFromCartesian_scale_witness :
  latLngFromCartesian {| x := 2 * 1; y := 2 * 0; z := 2 * 1 |} =
  latLngFromCartesian {| x := 1; y := 0; z := 1 |}.
Proof.
  apply (latLngFromCartesian_scale 2 {| x := 1; y := 0; z := 1 |}). lra.
Defined.

(** The wrap rule keeps the direction of a longitude. *)
Lemma wrapLng_direction (t : R) :
  - PI < t <= PI ->
  cos (toRad (wrapLng (toDeg t))) = cos t /\
  sin (toRad (wrapLng (toDeg t))) = sin t.
Proof.
  intros [Hl Hu]. pose proof PI_RGT_0 as Hpi.
  destruct (Req_dec_T t PI) as [->|Hne].
  - rewrite toDeg_PI, wrapLng_180, toRad_m180.
    rewrite cos_neg, sin_neg, sin_PI. split; [reflexivity | ring].
  - assert (Hd : -180 <= toDeg t < 180).
    { assert (H1 : toDeg (- PI) <= toDeg t) by (apply toDeg_le; lra).
      rewrite toDeg_opp, toDeg_PI in H1.
      assert (H2 : toDeg t < toDeg PI).
      { unfold toDeg. apply Rmult_lt_compat_r;
          [now apply Rinv_0_lt_compat | lra]. }
      rewrite toDeg_PI in H2. lra. }
    rewrite wrapLng_id by exact Hd. now rewrite toRad_toDeg.
Qed.

Lemma unit_vector_roundtrip (v : Vec3) :
  x v * x v + y v * y v + z v * z v = 1 ->
  exists r : LatLng,
    latLngFromCartesian v = Some r /\ cartesianFromLatLng r = v.
Proof.
  intros Hunit.
  rewrite latLngFromCartesian_value. eexists. split; [reflexivity|].
  unfold cartesianFromLatLng. cbn [lat lng].
  set (hyp := sqrt (x v * x v + y v * y v)).
  assert (Hhyp : hyp * hyp = x v * x v + y v * y v)
    by (apply sqrt_sqrt; nra).
  rewrite toRad_toDeg.
  destruct (Math_atan2_polar_inv (z v) hyp) as [Hc Hs].
  replace (hyp * hyp + z v * z v) with 1 in Hc, Hs by lra.
  rewrite sqrt_1, Rmult_1_l in Hc, Hs.
  destruct (wrapLng_direction (Math_atan2 (y v) (x v))
              (Math_atan2_range _ _)) as [Hwc Hws].
  rewrite Hc, Hs, Hwc, Hws.
  destruct (Math_atan2_polar_inv (y v) (x v)) as [Hx Hy].
  fold hyp in Hx, Hy.
  destruct v as [vx vy vz]; cbn [x y z] in *. now f_equal.
Qed.

(** X9.  The other round trip: the point that [latLngFromCartesian] returns
    for a vector of length one has that vector as its unit vector, the
    poles included. *)
Theorem cartesianFromLatLng_latLngFromCartesian (v : Vec3) :
  x v * x v + y v * y v + z v * z v = 1 ->
  exists r : LatLng,
    latLngFromCartesian v = Some r /\ cartesianFromLatLng r = v.
Proof.
  exact (unit_vector_roundtrip v).
Qed.

Lemma cartesianFromLatLng_latLngFromCartesian_witness :
  exists r : LatLng,
    latLngFromCartesian {| x := 0; y := 0; z := 1 |} = Some r /\
    cartesianFromLatLng r = {| x := 0; y := 0; z := 1 |}.
Proof.
  apply (cartesianFromLatLng_latLngFromCartesian {| x := 0; y := 0; z := 1 |}).
  cbn. lra.
Defined.

End FromCartesian.

(** ** The view of two and more points *)

Section ManyPoints.

(** The largest angle of the second [reduce]. *)
Lemma reduceM_widen_max (c : LatLng) (points : list Point) :
  forall m0 : number,
    exists m : number,
      reduceM (widen c) points m0 = Some m /\
      m0 <= m /\
      (forall p : Point, In p points ->
         2 * asin (Rmin 1 (sqrt (haversine c p))) <= m) /\
      (m = m0 \/
       exists p : Point,
         In p points /\ m = 2 * asin (Rmin 1 (sqrt (haversine c p)))).
Proof.
  induction points as [|p points IH]; intros m0; cbn [reduceM].
  - exists m0. repeat split; [lra | intros p [] | now left].
  - rewrite widen_value. cbn [bind].
    set (a := 2 * asin (Rmin 1 (sqrt (haversine c p)))).
    destruct (IH (Rmax m0 a)) as (m & Hm & Hle & Hall & Hatt).
    exists m. split; [exact Hm|].
    pose proof (Rmax_l m0 a). pose proof (Rmax_r m0 a).
    split; [lra|]. split.
    + intros p' [<-|Hin]; [fold a; lra | now apply Hall].
    + destruct Hatt as [Heq|(p' & Hin & Heq)].
      * unfold Rmax in Heq. destruct (Rle_dec m0 a).
        -- right. exists p. split; [now left | exact Heq].
        -- now left.
      * right. exists p'. split; [now right | exact Heq].
Qed.

(** The third branch of [viewForPoints], step by step. *)
Lemma viewForPoints_many_spec (p q : Point) (l : list Point) :
  let points := p :: q :: l in
  let sum := fold_left addPoint points {| x := 0; y := 0; z := 0 |} in
  let magnitude := sqrt (x sum * x sum + y sum * y sum + z sum * z sum) in
  exists (c : LatLng) (spread : number),
    (if Req_dec_T magnitude 0 then Some DEFAULT_POINT_OF_VIEW
     else latLngFromCartesian {| x := x sum / magnitude;
                                 y := y sum / magnitude;
                                 z := z sum / magnitude |}) = Some c /\
    reduceM (widen c) points 0 = Some spread /\
    viewForPoints points =
    Some {| center := c;
            farAltitude :=
              Rmin (Rmax (CLOSE_ALTITUDE
                          + (FAR_ALTITUDE - CLOSE_ALTITUDE)
                            * (0.35 + 0.65 * Rmin (spread / (PI / 2)) 1))
                         CLOSE_ALTITUDE) FAR_ALTITUDE |}.
Proof.
  intros points sum magnitude.
  assert (Hc : exists c : LatLng,
             (if Req_dec_T magnitude 0 then Some DEFAULT_POINT_OF_VIEW
              else latLngFromCartesian {| x := x sum / magnitude;
                                          y := y sum / magnitude;
                                          z := z sum / magnitude |})
             = Some c).
  { destruct (Req_dec_T magnitude 0); [now eexists|].
    rewrite latLngFromCartesian_value. now eexists. }
  destruct Hc as (c & Hc).
  destruct (reduceM_widen_defined c points 0) as (spread & Hs & _).
  exists c, spread. split; [exact Hc|]. split; [exact Hs|].
  unfold viewForPoints. fold points. fold sum.
  rewrite Math_sqrt_some by nra. fold magnitude. cbn [bind].
  destruct (Req_dec_T magnitude 0) as [Hz|Hnz].
  - injection Hc as <-. cbn [bind ret]. rewrite Hs. reflexivity.
  - rewrite !div_some by exact Hnz. cbn [bind].
    rewrite Hc. cbn [bind]. rewrite Hs. reflexivity.
Qed.

(** The far altitude before the last clamp is already in range. *)
Lemma farAltitude_unclamped (spread : number) :
  0 <= spread ->
  let a := CLOSE_ALTITUDE
           + (FAR_ALTITUDE - CLOSE_ALTITUDE)
             * (0.35 + 0.65 * Rmin (spread / (PI / 2)) 1) in
  Rmin (Rmax a CLOSE_ALTITUDE) FAR_ALTITUDE = a /\ 2.325 <= a <= 4.6.
Proof.
  intros Hs a. pose proof PI_RGT_0 as Hpi.
  assert (Hr : 0 <= Rmin (spread / (PI / 2)) 1 <= 1).
  { split; [|apply Rmin_r].
    apply Rmin_glb; [|lra].
    apply Rmult_le_pos; [exact Hs|].
    left. apply Rinv_0_lt_compat. lra. }
  assert (Ha : 2.325 <= a <= 4.6).
  { unfold a, CLOSE_ALTITUDE, FAR_ALTITUDE. lra. }
  split; [|exact Ha].
  unfold CLOSE_ALTITUDE, FAR_ALTITUDE in *.
  rewrite Rmax_left by lra. rewrite Rmin_left by lra. reflexivity.
Qed.

Lemma length_ge_2 {A : Type} (l : list A) :
  (2 <= List.length l)%nat -> exists a b l', l = a :: b :: l'.
Proof.
  destruct l as [|a [|b l']]; cbn; intros H; try lia. now eauto.
Qed.

(** X10.  On two and more points [viewForPoints] returns the default
    center when the summed unit vectors cancel, and otherwise the point
    whose unit vector is the summed vector scaled to length one. *)
Theorem viewForPoints_center (points : list Point) :
  let sum := fold_left addPoint points {| x := 0; y := 0; z := 0 |} in
  let magnitude := sqrt (x sum * x sum + y sum * y sum + z sum * z sum) in
  (2 <= List.length points)%nat ->
  exists v : View,
    viewForPoints points = Some v /\
    (magnitude = 0 -> center v = DEFAULT_POINT_OF_VIEW) /\
    (magnitude <> 0 ->
     cartesianFromLatLng v = {| x := x sum / magnitude;
                                y := y sum / magnitude;
                                z := z sum / magnitude |}).
Proof.
  intros sum magnitude Hlen.
  destruct (length_ge_2 points Hlen) as (p & q & l & Hpts).
  destruct (viewForPoints_many_spec p q l) as (c & spread & Hc & _ & Hv).
  rewrite <- Hpts in Hc, Hv. fold sum in Hc. fold magnitude in Hc.
  eexists. split; [exact Hv|]. cbn [center].
  destruct (Req_dec_T magnitude 0) as [Hz|Hnz].
  - split; [intros _; now injection Hc | tauto].
  - split; [tauto|]. intros _.
    assert (Hm : magnitude * magnitude
                 = x sum * x sum + y sum * y sum + z sum * z sum)
      by (apply sqrt_sqrt; nra).
    destruct (unit_vector_roundtrip
                {| x := x sum / magnitude; y := y sum / magnitude;
                   z := z sum / magnitude |}) as (r & Hr & Hcart).
    { cbn [x y z]. field_simplify_eq; [|exact Hnz]. lra. }
    rewrite Hr in Hc. now injection Hc as <-.
Qed.

Lemma viewForPoints_center_witness :
  let sum := fold_left addPoint [me; viewer] {| x := 0; y := 0; z := 0 |} in
  let magnitude := sqrt (x sum * x sum + y sum * y sum + z sum * z sum) in
  exists v : View,
    viewForPoints [me; viewer] = Some v /\
    (magnitude = 0 -> center v = DEFAULT_POINT_OF_VIEW) /\
    (magnitude <> 0 ->
     cartesianFromLatLng v = {| x := x sum / magnitude;
                                y := y sum / magnitude;
                                z := z sum / magnitude |}).
Proof.
  intros sum magnitude.
  apply (viewForPoints_center [me; viewer]). cbn. lia.
Defined.

End ManyPoints.

Section Spread.

(** X11.  On two and more points the far altitude is
    [CLOSE_ALTITUDE + (FAR_ALTITUDE - CLOSE_ALTITUDE) * (0.35 + 0.65 * r)]
    with [r] the smaller of 1 and [spread / (PI / 2)], where [spread] is
    the largest angular distance from the returned center to a point of
    the list; the last clamp changes nothing, and the far altitude is at
    least 2.325. *)
Theorem viewForPoints_farAltitude_spread (points : list Point) :
  (2 <= List.length points)%nat ->
  exists (v : View) (spread : number),
    viewForPoints points = Some v /\
    (forall p : Point, In p points ->
       exists d : number, angularDistance v p = Some d /\ d <= spread) /\
    (exists p : Point, In p points /\ angularDistance v p = Some spread) /\
    farAltitude v =
      CLOSE_ALTITUDE
      + (FAR_ALTITUDE - CLOSE_ALTITUDE)
        * (0.35 + 0.65 * Rmin (spread / (PI / 2)) 1) /\
    2.325 <= farAltitude v <= 4.6.
Proof.
  intros Hlen.
  destruct (length_ge_2 points Hlen) as (p & q & l & Hpts).
  destruct (viewForPoints_many_spec p q l) as (c & spread & _ & Hs & Hv).
  rewrite <- Hpts in Hs, Hv.
  destruct (reduceM_widen_max c points 0) as (m & Hm & H0 & Hall & Hatt).
  rewrite Hs in Hm. injection Hm as <-.
  destruct (farAltitude_unclamped spread H0) as [Hclamp Hrange].
  cbn zeta in Hclamp, Hrange.
  eexists. exists spread. split; [exact Hv|]. cbn [center farAltitude].
  split; [|split; [|split; [exact Hclamp | now rewrite Hclamp]]].
  - intros p' Hin. rewrite angularDistance_value.
    eexists. split; [reflexivity | now apply Hall].
  - destruct Hatt as [Hz|(p' & Hin & Heq)].
    + exists p. split; [rewrite Hpts; now left|].
      rewrite angularDistance_value. f_equal.
      pose proof (angle_range (haversine c p)) as [Hlo _].
      pose proof (Hall p) as Hle. rewrite Hpts in Hle.
      specialize (Hle (or_introl eq_refl)). lra.
    + exists p'. split; [exact Hin|].
      rewrite angularDistance_value. now f_equal.
Qed.

Lemma viewForPoints_farAltitude_spread_witness :
  exists (v : View) (spread : number),
    viewForPoints [me; viewer] = Some v /\
    (forall p : Point, In p [me; viewer] ->
       exists d : number, angularDistance v p = Some d /\ d <= spread) /\
    (exists p : Point,
        In p [me; viewer] /\ angularDistance v p = Some spread) /\
    farAltitude v =
      CLOSE_ALTITUDE
      + (FAR_ALTITUDE - CLOSE_ALTITUDE)
        * (0.35 + 0.65 * Rmin (spread / (PI / 2)) 1) /\
    2.325 <= farAltitude v <= 4.6.
Proof.
  apply (viewForPoints_farAltitude_spread [me; viewer]). cbn. lia.
Defined.

Lemma closeAltitude_range (far : number) :
  CLOSE_ALTITUDE <= far ->
  CLOSE_ALTITUDE <= closeAltitude far <= far.
Proof.
  intros Hfar. unfold closeAltitude. split.
  - apply Rmax_l.
  - apply Rmax_lub; lra.
Qed.

Lemma targetAltitude_between (far close zoomProgress : number) :
  close <= far ->
  close <= targetAltitude far close zoomProgress <= far.
Proof.
  intros Hcf. unfold targetAltitude.
  assert (Hc : 0 <= Rmin (Rmax zoomProgress 0) 1 <= 1).
  { split; [|apply Rmin_r]. apply Rmin_glb; [apply Rmax_r | lra]. }
  split; nra.
Qed.

(** X12.  Whatever the points and the zoom progress, the altitude that the
    zoom effect aims at lies between the close altitude of the component
    and the far altitude of the view, both within
    [CLOSE_ALTITUDE, FAR_ALTITUDE]. *)
Theorem targetAltitude_range (points : list Point) (zoomProgress : number) :
  exists v : View,
    viewForPoints points = Some v /\
    CLOSE_ALTITUDE <= closeAltitude (farAltitude v) /\
    closeAltitude (farAltitude v)
      <= targetAltitude (farAltitude v) (closeAltitude (farAltitude v))
           zoomProgress /\
    targetAltitude (farAltitude v) (closeAltitude (farAltitude v))
      zoomProgress <= farAltitude v /\
    farAltitude v <= FAR_ALTITUDE.
Proof.
  assert (Hv : exists v : View,
             viewForPoints points = Some v /\
             CLOSE_ALTITUDE <= farAltitude v <= FAR_ALTITUDE).
  { destruct points as [|p [|q l]].
    - eexists. split; [reflexivity|].
      cbn [farAltitude]. unfold CLOSE_ALTITUDE, FAR_ALTITUDE. lra.
    - eexists. split; [reflexivity|].
      cbn [farAltitude]. unfold CLOSE_ALTITUDE, FAR_ALTITUDE. lra.
    - destruct (viewForPoints_many p q l) as (c & spread & Hv).
      eexists. split; [exact Hv|].
      cbn [farAltitude]. apply clamp_altitude_range. }
  destruct Hv as (v & Hv & Hlo & Hhi).
  exists v. split; [exact Hv|].
  pose proof (closeAltitude_range _ Hlo) as [Hc1 Hc2].
  pose proof (targetAltitude_between (farAltitude v)
                (closeAltitude (farAltitude v)) zoomProgress Hc2)
    as [Ht1 Ht2].
  repeat split; assumption.
Qed.

Lemma fold_left_addPoint_same (c : LatLng) (l : list Point) :
  Forall (fun p : Point => coords p = c) l ->
  forall acc : Vec3,
    fold_left addPoint l acc =
    {| x := x acc + INR (List.length l) * x (cartesianFromLatLng c);
       y := y acc + INR (List.length l) * y (cartesianFromLatLng c);
       z := z acc + INR (List.length l) * z (cartesianFromLatLng c) |}.
Proof.
  induction 1 as [|p l Hp _ IH]; intros acc.
  - cbn [fold_left List.length INR]. destruct acc; cbn [x y z].
    f_equal; ring.
  - cbn [fold_left]. rewrite IH.
    change (List.length (p :: l)) with (S (List.length l)).
    rewrite S_INR. unfold addPoint. rewrite Hp. cbn [x y z].
    f_equal; ring.
Qed.

Lemma haversine_same (c : LatLng) : haversine c c = 0.
Proof.
  unfold haversine.
  replace ((toRad (lat c) - toRad (lat c)) / 2) with 0 by field.
  replace (toRad (lng c - lng c) / 2) with 0 by (unfold toRad; field).
  rewrite sin_0. ring.
Qed.

Lemma reduceM_widen_same (c : LatLng) (l : list Point) :
  Forall (fun p : Point => coords p = c) l ->
  reduceM (widen c) l 0 = Some 0.
Proof.
  induction 1 as [|p l Hp _ IH]; [reflexivity|].
  cbn [reduceM]. rewrite widen_value, Hp, haversine_same. cbn [bind].
  rewrite sqrt_0, Rmin_right by lra. rewrite asin_0.
  replace (2 * 0) with 0 by ring. rewrite Rmax_left by lra. exact IH.
Qed.

(** X13.  Two and more points at the same place, away from the poles and
    with a longitude in [-180, 180): [viewForPoints] returns that place as
    the center and the far altitude 2.325, the floor of the 0.35 weight. *)
Theorem viewForPoints_same_place (c : LatLng) (points : list Point) :
  (2 <= List.length points)%nat ->
  Forall (fun p : Point => coords p = c) points ->
  -90 < lat c < 90 ->
  -180 <= lng c < 180 ->
  viewForPoints points = Some {| center := c; farAltitude := 2.325 |}.
Proof.
  intros Hlen Hsame Hlat Hlng.
  destruct (length_ge_2 points Hlen) as (p & q & l & Hpts).
  destruct (viewForPoints_many_spec p q l) as (c' & spread & Hc & Hs & Hv).
  rewrite <- Hpts in Hc, Hs, Hv. rewrite Hv. clear Hv.
  rewrite (fold_left_addPoint_same c points Hsame) in Hc. cbn [x y z] in Hc.
  set (n := INR (List.length points)) in *.
  assert (Hn : 0 < n) by (unfold n; apply lt_0_INR; lia).
  pose proof (cartesian_unit c) as Hu. cbn zeta in Hu.
  set (u := cartesianFromLatLng c) in *.
  assert (Hmag : sqrt ((0 + n * x u) * (0 + n * x u)
                       + (0 + n * y u) * (0 + n * y u)
                       + (0 + n * z u) * (0 + n * z u)) = n).
  { apply sqrt_lem_1; nra. }
  rewrite Hmag in Hc.
  destruct (Req_dec_T n 0) as [Hz|_]; [lra|].
  replace ((0 + n * x u) / n) with (x u) in Hc by (field; lra).
  replace ((0 + n * y u) / n) with (y u) in Hc by (field; lra).
  replace ((0 + n * z u) / n) with (z u) in Hc by (field; lra).
  assert (Hrt : latLngFromCartesian u = Some c).
  { replace {| x := x u; y := y u; z := z u |} with u in Hc
      by now destruct u.
    unfold u. rewrite roundtrip_value by lra.
    destruct (Req_dec_T (lng c) 180); [lra|]. now destruct c. }
  replace {| x := x u; y := y u; z := z u |} with u in Hc by now destruct u.
  rewrite Hrt in Hc. injection Hc as <-.
  rewrite (reduceM_widen_same c points Hsame) in Hs. injection Hs as <-.
  do 2 f_equal.
  destruct (farAltitude_unclamped 0) as [Hclamp _]; [lra|].
  cbn zeta in Hclamp. rewrite Hclamp.
  replace (0 / (PI / 2)) with 0 by (field; apply PI_neq0).
  rewrite Rmin_left by lra. unfold CLOSE_ALTITUDE, FAR_ALTITUDE. lra.
Qed.

Lemma viewForPoints_same_place_witness :
  viewForPoints [me; me] = Some {| center := me; farAltitude := 2.325 |}.
Proof.
  apply (viewForPoints_same_place me [me; me]).
  - cbn. lia.
  - repeat constructor.
  - unfold me; cbn; lra.
  - unfold me; cbn; lra.
Defined.

End Spread.

(** ** The camera follows the target altitude *)

Section CameraTracking.

Import Camera.

Variable basePointOfView : View.
Variable close : number.

Lemma run_memo_is_camera (r : Refs) (e : Run) :
  memo_is_camera basePointOfView r ->
  memo_is_camera basePointOfView (run basePointOfView close r e).
Proof.
  intros Hinv g a. destruct e as [| |zp]; cbn [run].
  - unfold initGlobe, resetLastAltitude. cbn [globeRef lastAltitudeRef].
    destruct (globeRef r); cbn [globeRef lastAltitudeRef]; discriminate.
  - unfold applyBasePointOfView.
    destruct (globeRef r) as [g0|] eqn:Hg.
    + cbn [globeRef lastAltitudeRef]. intros Hg' Ha.
      injection Hg' as <-. now injection Ha as <-.
    + rewrite Hg. discriminate.
  - unfold zoomEffect.
    destruct (globeRef r) as [g0|] eqn:Hg.
    + destruct (lastAltitudeRef r) as [last|] eqn:Hl.
      * destruct (Rlt_dec _ _).
        -- rewrite Hg, Hl. intros Hg' Ha. apply Hinv; congruence.
        -- cbn [globeRef lastAltitudeRef]. intros Hg' Ha.
           injection Hg' as <-. now injection Ha as <-.
      * cbn [globeRef lastAltitudeRef]. intros Hg' Ha.
        injection Hg' as <-. now injection Ha as <-.
    + rewrite Hg. discriminate.
Qed.

Lemma run_mounted (r : Refs) (e : Run) :
  globeRef r <> None -> globeRef (run basePointOfView close r e) <> None.
Proof.
  intros Hg. destruct e as [| |zp]; cbn [run].
  - unfold initGlobe, resetLastAltitude. cbn [globeRef].
    destruct (globeRef r); [discriminate | tauto].
  - unfold applyBasePointOfView.
    destruct (globeRef r) eqn:Hr; [discriminate | now rewrite Hr].
  - unfold zoomEffect.
    destruct (globeRef r) eqn:Hr; [|now rewrite Hr].
    destruct (lastAltitudeRef r); [|discriminate].
    destruct (Rlt_dec _ _); [now rewrite Hr | discriminate].
Qed.

Lemma runs_invariants (es : list Run) :
  forall r : Refs,
    memo_is_camera basePointOfView r -> globeRef r <> None ->
    memo_is_camera basePointOfView (runs basePointOfView close es r) /\
    globeRef (runs basePointOfView close es r) <> None.
Proof.
  induction es as [|e es IH]; intros r Hinv Hg; cbn [runs fold_left].
  - split; assumption.
  - apply IH; [now apply run_memo_is_camera | now apply run_mounted].
Qed.

Lemma zoomEffect_tracks (zoomProgress : number) (r : Refs) :
  memo_is_camera basePointOfView r -> globeRef r <> None ->
  exists a : number,
    globeRef (zoomEffect basePointOfView close zoomProgress r)
      = Some (look basePointOfView a) /\
    lastAltitudeRef (zoomEffect basePointOfView close zoomProgress r)
      = Some a /\
    Rabs (a - targetAltitude (farAltitude basePointOfView) close zoomProgress)
      < 0.0005.
Proof.
  intros Hinv Hg. unfold zoomEffect.
  destruct (globeRef r) as [g0|] eqn:Hr; [|tauto].
  set (t := targetAltitude (farAltitude basePointOfView) close zoomProgress).
  assert (Hfresh : Rabs (t - t) < 0.0005).
  { replace (t - t) with 0 by ring. rewrite Rabs_R0. lra. }
  destruct (lastAltitudeRef r) as [last|] eqn:Hl.
  - destruct (Rlt_dec (Rabs (last - t)) 0.0005) as [Hnear|Hfar].
    + exists last. rewrite Hr, Hl.
      split; [f_equal; now apply Hinv | split; [reflexivity | exact Hnear]].
    + exists t. cbn [globeRef lastAltitudeRef]. now repeat split.
  - exists t. cbn [globeRef lastAltitudeRef]. now repeat split.
Qed.

End CameraTracking.

Section CameraTrackingResult.

Import Camera.

(** X14.  From the moment the globe is mounted, with [lastAltitudeRef]
    still [null], and after any runs of the effects of the component for a
    base view, a run of the zoom effect leaves the globe looking at the
    center of the base view from an altitude less than 0.0005 away from
    the target altitude of that run, and [lastAltitudeRef] holds the
    altitude of the globe. *)
Theorem zoomEffect_follows_target (basePointOfView : View) (close : number)
    (g0 : Globe) (es : list Run) (zoomProgress : number) :
  let r := runs basePointOfView close (es ++ [Zoom zoomProgress])
             {| globeRef := Some g0; lastAltitudeRef := None |} in
  exists a : number,
    globeRef r = Some (look basePointOfView a) /\
    lastAltitudeRef r = Some a /\
    Rabs (a - targetAltitude (farAltitude basePointOfView) close zoomProgress)
      < 0.0005.
Proof.
  intros r. unfold r, runs. rewrite fold_left_app. cbn [fold_left run].
  destruct (runs_invariants basePointOfView close es
              {| globeRef := Some g0; lastAltitudeRef := None |})
    as [Hinv Hg].
  - intros g a _ Ha. discriminate Ha.
  - discriminate.
  - now apply zoomEffect_tracks.
Qed.

End CameraTrackingResult.

(** ** The scroll progress *)

Section Scroll.

Import Home.

Lemma scrollProgressOf_value (innerHeight scrollY : number) :
  scrollProgressOf innerHeight scrollY =
  Some (Rmin (Rmax (scrollY - Rmax (innerHeight * 0.12) 80) 0
              / Rmax (innerHeight * 0.8) 1) 1).
Proof.
  unfold scrollProgressOf.
  pose proof (Rmax_r (innerHeight * 0.8) 1).
  rewrite div_some by lra. reflexivity.
Qed.

(** X15.  The progress of a scroll frame is defined for every window
    height and scroll offset (the divisor is at least 1), lies in [0, 1],
    is 0 exactly up to the dead zone, 1 exactly from the dead zone plus
    the scroll range on, linear in between, and does not decrease when the
    page is scrolled further. *)
Theorem scrollProgressOf_spec (innerHeight scrollY : number) :
  let deadZone := Rmax (innerHeight * 0.12) 80 in
  let scrollRange := Rmax (innerHeight * 0.8) 1 in
  exists p : number,
    scrollProgressOf innerHeight scrollY = Some p /\
    0 <= p <= 1 /\
    (p = 0 <-> scrollY <= deadZone) /\
    (p = 1 <-> deadZone + scrollRange <= scrollY) /\
    (deadZone <= scrollY <= deadZone + scrollRange ->
     p = (scrollY - deadZone) / scrollRange) /\
    (forall further : number,
        scrollY <= further ->
        exists p' : number,
          scrollProgressOf innerHeight further = Some p' /\ p <= p').
Proof.
  intros deadZone scrollRange.
  assert (Hsr : 1 <= scrollRange) by apply Rmax_r.
  assert (Hinv : 0 < / scrollRange) by (apply Rinv_0_lt_compat; lra).
  assert (Hval : forall y : number,
             scrollProgressOf innerHeight y
             = Some (Rmin (Rmax (y - deadZone) 0 / scrollRange) 1))
    by (intros y; apply scrollProgressOf_value).
  assert (Hcase : forall y : number,
             (y <= deadZone ->
              Rmin (Rmax (y - deadZone) 0 / scrollRange) 1 = 0) /\
             (deadZone <= y <= deadZone + scrollRange ->
              Rmin (Rmax (y - deadZone) 0 / scrollRange) 1
              = (y - deadZone) / scrollRange) /\
             (deadZone + scrollRange <= y ->
              Rmin (Rmax (y - deadZone) 0 / scrollRange) 1 = 1)).
  { intros y. repeat split.
    - intros Hy. rewrite Rmax_right by lra.
      unfold Rdiv. rewrite Rmult_0_l. apply Rmin_left. lra.
    - intros [Hy1 Hy2]. rewrite Rmax_left by lra.
      apply Rmin_left. apply Rmult_le_reg_r with scrollRange; [lra|].
      unfold Rdiv. rewrite Rmult_assoc, Rinv_l by lra. lra.
    - intros Hy. rewrite Rmax_left by lra.
      apply Rmin_right. apply Rmult_le_reg_r with scrollRange; [lra|].
      unfold Rdiv. rewrite Rmult_assoc, Rinv_l by lra. lra. }
  set (P := fun y : number =>
              Rmin (Rmax (y - deadZone) 0 / scrollRange) 1).
  assert (Hrange : forall y : number, 0 <= P y <= 1).
  { intros y. unfold P. split; [|apply Rmin_r].
    apply Rmin_glb; [|lra].
    apply Rmult_le_pos; [apply Rmax_r | lra]. }
  assert (Hmono : forall y y' : number, y <= y' -> P y <= P y').
  { intros y y' Hyy. unfold P. apply Rle_min_compat_r.
    apply Rmult_le_compat_r; [lra|].
    apply Rle_max_compat_r. lra. }
  assert (Hpos : deadZone < scrollY -> 0 < P scrollY).
  { intros Hy. destruct (Hcase scrollY) as (_ & Hmid & H1). unfold P.
    destruct (Rle_dec scrollY (deadZone + scrollRange)).
    - rewrite Hmid by lra. apply Rmult_lt_0_compat; lra.
    - rewrite H1 by lra. lra. }
  assert (Hlt1 : scrollY < deadZone + scrollRange -> P scrollY < 1).
  { intros Hy. destruct (Hcase scrollY) as (H0 & Hmid & _). unfold P.
    destruct (Rle_dec scrollY deadZone).
    - rewrite H0 by lra. lra.
    - rewrite Hmid by lra.
      apply Rmult_lt_reg_r with scrollRange; [lra|].
      unfold Rdiv. rewrite Rmult_assoc, Rinv_l by lra. lra. }
  destruct (Hcase scrollY) as (H0 & Hmid & H1).
  exists (P scrollY). split; [apply Hval|].
  split; [apply Hrange|].
  split; [|split; [|split]].
  - split; [|exact H0].
    intros Hz. destruct (Rle_dec scrollY deadZone) as [|Hn]; [assumption|].
    apply Rnot_le_lt in Hn. specialize (Hpos Hn). lra.
  - split; [|exact H1].
    intros Ho.
    destruct (Rle_dec (deadZone + scrollRange) scrollY) as [|Hn];
      [assumption|].
    apply Rnot_le_lt in Hn. specialize (Hlt1 Hn). lra.
  - exact Hmid.
  - intros further Hf. exists (P further).
    split; [apply Hval | now apply Hmono].
Qed.


End Scroll.

Section ScrollState.

Import Home.

Lemma reduceM_app {A B : Type} (f : B -> A -> option B) (l l' : list A) :
  forall acc : B,
    reduceM f (l ++ l') acc = (b <- reduceM f l acc ;; reduceM f l' b).
Proof.
  induction l as [|a l IH]; intros acc; cbn [reduceM app bind ret].
  - reflexivity.
  - destruct (f acc a) as [b|]; cbn [bind]; [apply IH | reflexivity].
Qed.

Lemma scrollProgressOf_range (innerHeight scrollY : number) :
  exists p : number,
    scrollProgressOf innerHeight scrollY = Some p /\ 0 <= p <= 1.
Proof.
  eexists. split; [apply scrollProgressOf_value|].
  pose proof (Rmax_r (innerHeight * 0.8) 1) as Hsr.
  split; [|apply Rmin_r].
  apply Rmin_glb; [|lra].
  apply Rmult_le_pos; [apply Rmax_r|].
  left. apply Rinv_0_lt_compat. lra.
Qed.

Lemma handleScroll_step (prev : number) (window : number * number) :
  0 <= prev <= 1 ->
  exists s p : number,
    handleScroll prev window = Some s /\
    scrollProgressOf (fst window) (snd window) = Some p /\
    Rabs (s - p) < 0.003 /\ 0 <= s <= 1.
Proof.
  intros Hprev. destruct window as [innerHeight scrollY].
  destruct (scrollProgressOf_range innerHeight scrollY) as (p & Hp & Hrange).
  unfold handleScroll. cbn [fst snd]. rewrite Hp. cbn [bind ret].
  unfold updateScrollProgress.
  destruct (Rlt_dec (Rabs (prev - p)) 0.003) as [Hnear|Hfar].
  - exists prev, p. now repeat split.
  - exists p, p. repeat split; try tauto.
    replace (p - p) with 0 by ring. rewrite Rabs_R0. lra.
Qed.

Lemma handleScroll_frames (events : list (number * number)) :
  forall prev : number,
    0 <= prev <= 1 ->
    exists s : number, reduceM handleScroll events prev = Some s /\ 0 <= s <= 1.
Proof.
  induction events as [|w events IH]; intros prev Hprev; cbn [reduceM].
  - exists prev. now split.
  - destruct (handleScroll_step prev w Hprev) as (s & p & Hs & _ & _ & Hr).
    rewrite Hs. cbn [bind]. now apply IH.
Qed.

(** X16.  The state [scrollProgress] of the home page starts at 0; after
    any frames of [handleScroll] it is defined, lies in [0, 1], and is less
    than 0.003 away from the progress of the last frame.  So the clamp of
    the zoom effect of [GlobeScene] leaves it as it is: the target altitude
    is [far - (far - close) * scrollProgress]. *)
Theorem scrollProgress_state (events : list (number * number))
    (window : number * number) :
  exists s p : number,
    reduceM handleScroll (events ++ [window]) 0 = Some s /\
    scrollProgressOf (fst window) (snd window) = Some p /\
    Rabs (s - p) < 0.003 /\
    0 <= s <= 1 /\
    forall far close : number,
      targetAltitude far close s = far - (far - close) * s.
Proof.
  destruct (handleScroll_frames events 0) as (s0 & Hs0 & Hr0); [lra|].
  destruct (handleScroll_step s0 window Hr0) as (s & p & Hs & Hp & Hd & Hr).
  exists s, p. rewrite reduceM_app, Hs0. cbn [bind reduceM].
  rewrite Hs. cbn [bind ret].
  repeat split; try assumption; try tauto.
  intros far close. unfold targetAltitude.
  rewrite Rmax_left by lra. rewrite Rmin_left by lra. reflexivity.
Qed.

End ScrollState.

(** ** The texts of the now-playing panel *)

Section Texts.

Import JsString NowPlaying.

Local Open Scope string_scope.

Lemma Zfloor_div (t d : Z) :
  (0 < d)%Z -> Zfloor (IZR t / IZR d) = (t / d)%Z.
Proof.
  intros Hd. apply Zfloor_eq.
  pose proof (Z.div_mod t d) as Hdm.
  pose proof (Z.mod_pos_bound t d Hd) as [Hm0 Hm1].
  assert (Ht : IZR t = IZR d * IZR (t / d) + IZR (t mod d)).
  { rewrite <- mult_IZR, <- plus_IZR. f_equal. apply Hdm. lia. }
  assert (HdR : 0 < IZR d) by now apply IZR_lt.
  apply IZR_le in Hm0. apply IZR_lt in Hm1.
  assert (Hinv : 0 < / IZR d) by now apply Rinv_0_lt_compat.
  split.
  - apply Rmult_le_reg_r with (IZR d); [exact HdR|].
    unfold Rdiv. rewrite Rmult_assoc, Rinv_l by lra. lra.
  - apply Rmult_lt_reg_r with (IZR d); [exact HdR|].
    unfold Rdiv. rewrite Rmult_assoc, Rinv_l by lra. lra.
Qed.

Lemma rem_60 (t : Z) : (0 <= t)%Z -> rem (IZR t) 60 = IZR (t mod 60).
Proof.
  intros Ht. unfold rem, trunc.
  assert (H0 : 0 <= IZR t / 60).
  { apply IZR_le in Ht. unfold Rdiv. apply Rmult_le_pos; lra. }
  destruct (Rle_dec 0 (IZR t / 60)) as [_|Hn]; [|tauto].
  rewrite (Zfloor_div t 60) by lia.
  pose proof (Z.div_mod t 60) as Hdm.
  replace (IZR (t mod 60)) with (IZR (t - 60 * (t / 60))) by (f_equal; lia).
  rewrite minus_IZR, mult_IZR. reflexivity.
Qed.

Lemma String_of_number_IZR (n : Z) :
  String_of_number (IZR n) = NilEmpty.string_of_int (Z.to_int n).
Proof.
  unfold String_of_number. now rewrite ZfloorZ.
Qed.

Lemma Rmax_IZR (a b : Z) : Rmax (IZR a) (IZR b) = IZR (Z.max a b).
Proof.
  destruct (Z.le_ge_cases a b) as [H|H].
  - rewrite Z.max_r by exact H. apply Rmax_right. now apply IZR_le.
  - rewrite Z.max_l by exact H. apply Rmax_left. now apply IZR_le.
Qed.

Lemma two_digits (r : Z) :
  (0 <= r < 60)%Z ->
  padStart 2 "0" (NilEmpty.string_of_int (Z.to_int r)) =
  String (digit (r / 10)) (String (digit (r mod 10)) "").
Proof.
  intros Hr.
  assert (Hn : exists n : nat, (n < 60)%nat /\ r = Z.of_nat n)
    by (exists (Z.to_nat r); lia).
  destruct Hn as (n & Hn & ->).
  do 60 (destruct n as [|n]; [vm_compute; reflexivity|]). lia.
Qed.

(** X17.  For a number of milliseconds below 2^53 (so that the seconds
    and the minutes are whole numbers that a double holds and that are
    printed in full), [formatMs] returns the whole minutes, a colon and the
    remaining whole seconds as two digits, of the whole seconds in [ms],
    counted as zero when [ms] is negative. *)
Theorem formatMs_minutes_seconds (ms : number) :
  ms < 9007199254740992 ->
  let totalSeconds := Z.max 0 (Zfloor (ms / 1000)) in
  (0 <= totalSeconds mod 60 < 60)%Z /\
  formatMs (Some ms) =
    NilEmpty.string_of_int (Z.to_int (totalSeconds / 60)) ++ ":" ++
    String (digit (totalSeconds mod 60 / 10))
      (String (digit (totalSeconds mod 60 mod 10)) "").
Proof.
  intros _ totalSeconds.
  assert (Ht : (0 <= totalSeconds)%Z) by apply Z.le_max_l.
  pose proof (Z.mod_pos_bound totalSeconds 60 eq_refl) as Hmod.
  split; [exact Hmod|].
  unfold formatMs, Math_floor.
  rewrite (Rmax_IZR 0 (Zfloor (ms / 1000))). fold totalSeconds.
  rewrite (Zfloor_div totalSeconds 60) by lia.
  rewrite rem_60 by exact Ht.
  rewrite !String_of_number_IZR.
  now rewrite two_digits by exact Hmod.
Qed.

Lemma formatMs_minutes_seconds_witness :
  (0 <= Z.max 0 (Zfloor (83000 / 1000)) mod 60 < 60)%Z /\
  formatMs (Some 83000) =
    NilEmpty.string_of_int (Z.to_int (Z.max 0 (Zfloor (83000 / 1000)) / 60))
    ++ ":" ++
    String (digit (Z.max 0 (Zfloor (83000 / 1000)) mod 60 / 10))
      (String (digit (Z.max 0 (Zfloor (83000 / 1000)) mod 60 mod 10)) "").
Proof.
  apply (formatMs_minutes_seconds 83000). lra.
Defined.

(** X18.  For a text that is a date, [formatUpdatedAgo] answers "just now"
    below 30 seconds of age (also for a date in the future), "1 minute ago"
    from 30 to 90 seconds, and from 90 seconds on the age rounded to the
    nearest minute, which is at least 2. *)
Theorem formatUpdatedAgo_labels (now : number)
    (getTime : string -> option number) (s : string) (t : number) :
  s <> "" ->
  getTime s = Some t ->
  now - t < 6 * 10 ^ 25 ->
  (now - t < 30000 ->
   formatUpdatedAgo now getTime (Some s) = "just now") /\
  (30000 <= now - t < 90000 ->
   formatUpdatedAgo now getTime (Some s) = "1 minute ago") /\
  (90000 <= now - t ->
   exists n : Z,
     (2 <= n)%Z /\
     IZR n - 1 / 2 <= (now - t) / 60000 < IZR n + 1 / 2 /\
     formatUpdatedAgo now getTime (Some s) =
       NilEmpty.string_of_int (Z.to_int n) ++ " minutes ago").
Proof.
  intros Hs Ht _.
  assert (Hf : formatUpdatedAgo now getTime (Some s) =
               let diffMs := Rmax 0 (now - t) in
               if Rlt_dec diffMs 30000 then "just now"
               else if Rlt_dec diffMs 90000 then "1 minute ago"
               else String_of_number (Math_round (diffMs / 60000))
                    ++ " minutes ago").
  { unfold formatUpdatedAgo. destruct s; [tauto|]. now rewrite Ht. }
  rewrite Hf. cbn zeta. clear Hf.
  split; [|split].
  - intros Hd.
    destruct (Rlt_dec (Rmax 0 (now - t)) 30000) as [|Hn]; [reflexivity|].
    exfalso. apply Hn. apply Rmax_lub_lt; lra.
  - intros [Hd1 Hd2]. rewrite Rmax_right by lra.
    destruct (Rlt_dec (now - t) 30000); [lra|].
    destruct (Rlt_dec (now - t) 90000); [reflexivity | lra].
  - intros Hd. rewrite Rmax_right by lra.
    destruct (Rlt_dec (now - t) 30000); [lra|].
    destruct (Rlt_dec (now - t) 90000); [lra|].
    set (q := (now - t) / 60000).
    assert (Hq : 3 / 2 <= q) by (unfold q; lra).
    exists (Zfloor (q + 1 / 2)).
    pose proof (Zfloor_bound (q + 1 / 2)) as [Hl Hu].
    split; [|split].
    + apply (Zfloor_lub 2). cbn. lra.
    + lra.
    + unfold Math_round. now rewrite String_of_number_IZR.
Qed.

Lemma formatUpdatedAgo_labels_witness :
  (120000 - 0 < 30000 ->
   formatUpdatedAgo 120000 (fun _ => Some 0) (Some "2026-01-01") = "just now")
  /\
  (30000 <= 120000 - 0 < 90000 ->
   formatUpdatedAgo 120000 (fun _ => Some 0) (Some "2026-01-01")
   = "1 minute ago") /\
  (90000 <= 120000 - 0 ->
   exists n : Z,
     (2 <= n)%Z /\
     IZR n - 1 / 2 <= (120000 - 0) / 60000 < IZR n + 1 / 2 /\
     formatUpdatedAgo 120000 (fun _ => Some 0) (Some "2026-01-01") =
       NilEmpty.string_of_int (Z.to_int n) ++ " minutes ago").
Proof.
  apply (formatUpdatedAgo_labels 120000 (fun _ => Some 0) "2026-01-01" 0).
  - discriminate.
  - reflexivity.
  - lra.
Defined.

End Texts.

(** ** The album image *)

Section AlbumImage.

Import Spotify.

Lemma insertByWidth_perm (img : Image) (sorted : list Image) :
  Permutation (img :: sorted) (insertByWidth img sorted).
Proof.
  induction sorted as [|b rest IH]; cbn [insertByWidth].
  - apply Permutation_refl.
  - destruct (Rlt_dec _ _).
    + apply Permutation_refl.
    + eapply perm_trans; [apply perm_swap|]. now apply perm_skip.
Qed.

Lemma sortByWidth_perm_acc (images : list Image) :
  forall acc : list Image,
    Permutation (images ++ acc)
      (fold_left (fun sorted img => insertByWidth img sorted) images acc).
Proof.
  induction images as [|img images IH]; intros acc; cbn [fold_left app].
  - apply Permutation_refl.
  - eapply perm_trans; [|apply IH].
    eapply perm_trans; [apply Permutation_middle|].
    apply Permutation_app_head. apply insertByWidth_perm.
Qed.

Lemma sortByWidth_perm (images : list Image) :
  Permutation images (sortByWidth images).
Proof.
  unfold sortByWidth.
  rewrite <- (app_nil_r images) at 1. apply sortByWidth_perm_acc.
Qed.

Lemma insertByWidth_sorted (img : Image) (sorted : list Image) :
  StronglySorted narrower sorted -> StronglySorted narrower (insertByWidth img sorted).
Proof.
  induction 1 as [|b rest Hs IH Hb]; cbn [insertByWidth].
  - constructor; [constructor | constructor].
  - destruct (Rlt_dec (widthOr 0 img - widthOr 0 b) 0) as [Hlt|Hge].
    + constructor; [now constructor|].
      constructor; [unfold narrower; lra|].
      rewrite Forall_forall in Hb |- *. intros e He.
      specialize (Hb e He). unfold narrower in *. lra.
    + constructor; [exact IH|].
      rewrite Forall_forall in Hb |- *. intros e He.
      apply (Permutation_in _ (Permutation_sym (insertByWidth_perm img rest)))
        in He.
      destruct He as [<-|He]; [unfold narrower; lra | now apply Hb].
Qed.

Lemma sortByWidth_sorted (images : list Image) :
  StronglySorted narrower (sortByWidth images).
Proof.
  unfold sortByWidth.
  assert (H : forall acc : list Image,
             StronglySorted narrower acc ->
             StronglySorted narrower
               (fold_left (fun sorted img => insertByWidth img sorted)
                  images acc)).
  { induction images as [|img images IH]; intros acc Hacc; cbn [fold_left].
    - exact Hacc.
    - apply IH. now apply insertByWidth_sorted. }
  apply H. constructor.
Qed.

(** The loop keeps the first of the closest images seen so far. *)
Lemma fold_closer (l : list Image) :
  forall (best : Image) (seen : list Image),
    In best seen ->
    (forall e : Image, In e seen ->
       offTarget best <= offTarget e /\ (offTarget e = offTarget best -> narrower best e)) ->
    (forall e x : Image, In e seen -> In x l -> narrower e x) ->
    StronglySorted narrower l ->
    In (fold_left (closer 320) l best) (seen ++ l) /\
    forall e : Image, In e (seen ++ l) ->
      offTarget (fold_left (closer 320) l best) <= offTarget e /\
      (offTarget e = offTarget (fold_left (closer 320) l best) ->
       narrower (fold_left (closer 320) l best) e).
Proof.
  induction l as [|x l IH]; intros best seen Hin Hbest Hle Hsorted;
    cbn [fold_left].
  - rewrite app_nil_r. now split.
  - inversion Hsorted as [|? ? Hs Hx]; subst.
    rewrite Forall_forall in Hx.
    replace (seen ++ x :: l) with ((seen ++ [x]) ++ l)
      by now rewrite <- app_assoc.
    apply IH; [| | |exact Hs].
    + apply in_or_app. unfold closer. fold (offTarget x) (offTarget best).
      destruct (Rlt_dec (offTarget x) (offTarget best)); [right | left];
        [now left | exact Hin].
    + intros e He. apply in_app_or in He.
      unfold closer. fold (offTarget x) (offTarget best).
      destruct (Rlt_dec (offTarget x) (offTarget best)) as [Hlt|Hge].
      * destruct He as [He|[<-|[]]].
        -- destruct (Hbest e He) as [Hd _]. split; [lra|]. intros Heq. lra.
        -- split; [lra|]. intros _. unfold narrower. lra.
      * destruct He as [He|[<-|[]]].
        -- now apply Hbest.
        -- split; [lra|]. intros _. apply Hle; [exact Hin | now left].
    + intros e y He Hy. apply in_app_or in He.
      destruct He as [He|[<-|[]]].
      * apply Hle; [exact He | now right].
      * now apply Hx.
Qed.

(** X19.  For a list of images that is not empty, [pickAlbumImage] returns
    the address of an image of the list whose width is closest to 320, a
    missing or zero width counting as 320; among the closest images it is
    one of least width. *)
Theorem pickAlbumImage_closest (images : list Image) :
  images <> [] ->
  exists best : Image,
    In best images /\
    pickAlbumImage (Some images) = Some (url best) /\
    forall img : Image, In img images ->
      Rabs (widthOr 320 best - 320) <= Rabs (widthOr 320 img - 320) /\
      (Rabs (widthOr 320 img - 320) = Rabs (widthOr 320 best - 320) ->
       widthOr 0 best <= widthOr 0 img).
Proof.
  intros Hne.
  pose proof (sortByWidth_perm images) as Hperm.
  pose proof (sortByWidth_sorted images) as Hsorted.
  destruct images as [|i0 images']; [tauto|].
  unfold pickAlbumImage.
  set (images := i0 :: images') in *.
  destruct (sortByWidth images) as [|first rest] eqn:Hsort.
  - apply Permutation_length in Hperm. discriminate Hperm.
  - destruct (fold_closer (first :: rest) first [first]) as [Hin Hmin].
    + now left.
    + intros e [<-|[]]. split; [lra | intros _; unfold narrower; lra].
    + intros e y [<-|[]] Hy. destruct Hy as [<-|Hy]; [unfold narrower; lra|].
      inversion Hsorted as [|? ? _ Hx]; subst.
      rewrite Forall_forall in Hx. now apply Hx.
    + exact Hsorted.
    + set (best := fold_left (closer 320) (first :: rest) first) in *.
      assert (Hsub : forall e : Image,
                 In e ([first] ++ first :: rest) <-> In e images).
      { intros e. split.
        - intros He. apply (Permutation_in _ (Permutation_sym Hperm)).
          destruct He as [<-|He]; [now left | exact He].
        - intros He. right. now apply (Permutation_in _ Hperm). }
      exists best. split; [now apply Hsub|]. split; [reflexivity|].
      intros img Himg. apply Hsub in Himg.
      destruct (Hmin img Himg) as [Hd Htie]. split; [exact Hd|].
      intros Heq. now apply Htie.
Qed.

Lemma pickAlbumImage_closest_witness :
  exists best : Image,
    In best [mkImage "large" 640 640; mkImage "mid" 300 300;
             mkImage "small" 64 64] /\
    pickAlbumImage (Some [mkImage "large" 640 640; mkImage "mid" 300 300;
                          mkImage "small" 64 64]) = Some (url best) /\
    forall img : Image,
      In img [mkImage "large" 640 640; mkImage "mid" 300 300;
              mkImage "small" 64 64] ->
      Rabs (widthOr 320 best - 320) <= Rabs (widthOr 320 img - 320) /\
      (Rabs (widthOr 320 img - 320) = Rabs (widthOr 320 best - 320) ->
       widthOr 0 best <= widthOr 0 img).
Proof.
  apply (pickAlbumImage_closest
           [mkImage "large" 640 640; mkImage "mid" 300 300;
            mkImage "small" 64 64]).
  discriminate.
Defined.

End AlbumImage.

(** ** The distance in kilometres *)

Section Kilometres.

(** X20.  [haversineKm] is symmetric, is zero from a point to itself, and
    lies between 0 and half the circumference of the sphere, 6371 * PI
    kilometres. *)
Theorem haversineKm_metric (a b : LatLng) :
  Geo.haversineKm a b = Geo.haversineKm b a /\
  Geo.haversineKm a a = Some 0 /\
  exists d : number, Geo.haversineKm a b = Some d /\ 0 <= d <= 6371 * PI.
Proof.
  rewrite !haversineKm_value. split; [|split].
  - now rewrite haversine_sym.
  - rewrite haversine_same, sqrt_0, asin_0. f_equal. ring.
  - eexists. split; [reflexivity|].
    pose proof (haversine_range a b) as Hh.
    assert (Hr : 0 <= sqrt (haversine a b) <= 1)
      by (split; [apply sqrt_pos | now apply sqrt_le_1]).
    pose proof (asin_range _ Hr). lra.
Qed.

End Kilometres.

(** ** The admin session *)

Section Session.

Import Auth.

Local Open Scope string_scope.

Variable hmac : string -> string -> string.
Variable toBase64url fromBase64url : string -> string.
Variable JSON_stringify : Json -> string.
Variable JSON_parse : string -> option Json.

Lemma split_dot_dot_free (s : string) : dot_free s -> split_dot s = [s].
Proof.
  induction s as [|c s IH]; cbn [split_dot dot_free]; [reflexivity|].
  intros [Hc Hs]. apply Ascii.eqb_neq in Hc. rewrite Hc, IH by exact Hs.
  reflexivity.
Qed.

Lemma split_dot_join (p s : string) :
  dot_free p -> dot_free s -> split_dot (p ++ "." ++ s) = [p; s].
Proof.
  intros Hp Hs. induction p as [|c p IH].
  - cbn. now rewrite split_dot_dot_free.
  - destruct Hp as [Hc Hp]. apply Ascii.eqb_neq in Hc.
    change (String c p ++ "." ++ s) with (String c (p ++ "." ++ s)).
    cbn [split_dot]. rewrite Hc, IH by exact Hp. reflexivity.
Qed.

Lemma timingSafeEqual_same (a : string) : timingSafeEqual a a = Returned true.
Proof.
  unfold timingSafeEqual. now rewrite Nat.eqb_refl, String.eqb_refl.
Qed.

Lemma timingSafeEqual_true (a b : string) :
  timingSafeEqual a b = Returned true -> a = b.
Proof.
  unfold timingSafeEqual. destruct (String.length a =? String.length b)%nat;
    [|discriminate].
  intros H. injection H as H. now apply String.eqb_eq.
Qed.

Lemma readSession_admin (payload : string) (exp now : number) :
  JSON_parse (fromBase64url payload) = Some (adminSession exp) ->
  readSession fromBase64url JSON_parse payload now =
  if Rlt_dec exp now then None else Some (adminSession exp).
Proof.
  intros Hparse. unfold readSession. rewrite Hparse. reflexivity.
Qed.

(** X21.  A token issued with a secret is accepted with that secret until
    the session expires, one year after it was issued, and refused from
    then on; provided that the payload and the signature are not empty and
    hold no dot (the alphabet of base64url), and that decoding and parsing
    the payload give the session back. *)
Theorem issued_token_valid_until_expiry (secret : string) (now later : number) :
  let session := adminSession (now + SESSION_TTL_MS) in
  let payload := toBase64url (JSON_stringify session) in
  secret <> "" ->
  payload <> "" -> dot_free payload ->
  hmac secret payload <> "" -> dot_free (hmac secret payload) ->
  JSON_parse (fromBase64url payload) = Some session ->
  exists token : string,
    issueAdminToken hmac toBase64url JSON_stringify (Some secret) now
      = Returned token /\
    (validateAdminToken hmac fromBase64url JSON_parse (Some secret) later
       (Some token) = true
     <-> later <= now + SESSION_TTL_MS).
Proof.
  intros session payload Hsecret Hp Hpd Hs Hsd Hparse.
  assert (Hget : getSecret (Some secret) = Returned secret)
    by (destruct secret; [tauto | reflexivity]).
  eexists. split.
  - unfold issueAdminToken. rewrite Hget. reflexivity.
  - unfold encode. fold session. fold payload.
    set (sig := hmac secret payload) in *.
    assert (Htoken : exists c rest, payload ++ "." ++ sig = String c rest).
    { destruct payload as [|c rest]; [tauto|]. now exists c, (rest ++ "." ++ sig). }
    destruct Htoken as (c & rest & Htoken).
    assert (Hdec : decode hmac fromBase64url JSON_parse
                     (payload ++ "." ++ sig) secret later
                   = Returned (if Rlt_dec (now + SESSION_TTL_MS) later
                               then None else Some session)).
    { unfold decode. rewrite split_dot_join by assumption.
      fold sig. rewrite timingSafeEqual_same.
      rewrite (readSession_admin payload _ later Hparse).
      destruct payload; [tauto|]. destruct sig; [tauto|]. reflexivity. }
    unfold validateAdminToken. rewrite Hget.
    rewrite Htoken in *. rewrite Hdec.
    destruct (Rlt_dec (now + SESSION_TTL_MS) later); split;
      intros H; try reflexivity; try discriminate; lra.
Qed.

Lemma getSecret_returned (env : option string) (secret : string) :
  getSecret env = Returned secret -> env = Some secret /\ secret <> "".
Proof.
  destruct env as [[|c s]|]; cbn; intros H; inversion H.
  split; [reflexivity | discriminate].
Qed.

Lemma readSession_some (payload : string) (now : number) (session : Json) :
  readSession fromBase64url JSON_parse payload now = Some session ->
  JSON_parse (fromBase64url payload) = Some session /\
  prop "role" session = Returned (Some (JString "admin")) /\
  exists exp : number,
    prop "exp" session = Returned (Some (JNumber (Some exp))) /\ now <= exp.
Proof.
  unfold readSession.
  destruct (JSON_parse (fromBase64url payload)) as [j|]; [|discriminate].
  destruct (prop "role" j) as [|[[| | |role| |]|]] eqn:Hrole;
    try discriminate.
  destruct (String.eqb role "admin") eqn:Hadmin; [|discriminate].
  apply String.eqb_eq in Hadmin. subst role.
  destruct (prop "exp" j) as [|[[| |[exp|]| | |]|]] eqn:Hexp;
    try discriminate.
  destruct (Rlt_dec exp now) as [|Hge]; [discriminate|].
  intros H. injection H as <-.
  split; [reflexivity|]. split; [exact Hrole|].
  exists exp. split; [exact Hexp | lra].
Qed.

Lemma decode_some (token secret : string) (now : number) (session : Json) :
  decode hmac fromBase64url JSON_parse token secret now
    = Returned (Some session) ->
  exists (payload sig : string) (rest : list string),
    split_dot token = payload :: sig :: rest /\
    payload <> "" /\
    sig = hmac secret payload /\
    readSession fromBase64url JSON_parse payload now = Some session.
Proof.
  unfold decode.
  destruct (split_dot token) as [|payload [|sig rest]]; try discriminate.
  destruct payload as [|pc p]; [discriminate|].
  destruct sig as [|sc sg]; [discriminate|].
  destruct (timingSafeEqual (String sc sg) (hmac secret (String pc p)))
    as [|[|]] eqn:Heq; try discriminate.
  apply timingSafeEqual_true in Heq.
  intros H. injection H as H.
  exists (String pc p), (String sc sg), rest.
  repeat split; [discriminate | exact Heq | exact H].
Qed.

(** X22.  [validateAdminToken] accepts a token only if the secret is set,
    the first part of the token is not empty, its second part is the HMAC
    of the first part under the secret, and the first part decodes to a
    value whose [role] is "admin" and whose [exp] is a finite number not
    before the present time. *)
Theorem validateAdminToken_sound (ADMIN_SESSION_SECRET : option string)
    (now : number) (token : option string) :
  validateAdminToken hmac fromBase64url JSON_parse ADMIN_SESSION_SECRET now
    token = true ->
  exists (secret t payload sig : string) (rest : list string)
         (session : Json) (exp : number),
    ADMIN_SESSION_SECRET = Some secret /\ secret <> "" /\
    token = Some t /\
    split_dot t = payload :: sig :: rest /\
    payload <> "" /\
    sig = hmac secret payload /\
    JSON_parse (fromBase64url payload) = Some session /\
    prop "role" session = Returned (Some (JString "admin")) /\
    prop "exp" session = Returned (Some (JNumber (Some exp))) /\
    now <= exp.
Proof.
  unfold validateAdminToken.
  destruct token as [[|c t]|]; try discriminate.
  destruct (getSecret ADMIN_SESSION_SECRET) as [|secret] eqn:Hget;
    [discriminate|].
  destruct (decode hmac fromBase64url JSON_parse (String c t) secret now)
    as [|[session|]] eqn:Hdec; try discriminate.
  intros _.
  apply getSecret_returned in Hget. destruct Hget as [-> Hsecret].
  apply decode_some in Hdec.
  destruct Hdec as (payload & sig & rest & Hsplit & Hp & Hsig & Hread).
  apply readSession_some in Hread.
  destruct Hread as (Hparse & Hrole & exp & Hexp & Hnow).
  exists secret, (String c t), payload, sig, rest, session, exp.
  repeat split; assumption.
Qed.

Lemma sessionMaxAgeSeconds_value : sessionMaxAgeSeconds = 31536000.
Proof.
  unfold sessionMaxAgeSeconds, SESSION_TTL_MS.
  rewrite (Zfloor_eq 31536000); [reflexivity|]. lra.
Qed.

(** X23.  [POST] answers 200 exactly when [ADMIN_PASSWORD] is set and the
    request carries that password; it then sets one cookie, named
    [petar_admin_session], http-only, strict, for the path "/", holding
    the issued token and living 31536000 seconds, the lifetime of the
    session.  Every other answer is 400, 401 or 500 and sets no cookie.
    [POST] throws only when the password is right and the secret of the
    session is missing. *)
Theorem POST_grants (ADMIN_PASSWORD ADMIN_SESSION_SECRET : option string)
    (production : bool) (now : number) (json : option (option string)) :
  let granted :=
    exists password : string,
      json = Some (Some password) /\ password <> "" /\
      ADMIN_PASSWORD = Some password in
  match POST hmac toBase64url JSON_stringify ADMIN_PASSWORD
          ADMIN_SESSION_SECRET production now json with
  | Threw => granted /\ getSecret ADMIN_SESSION_SECRET = Threw
  | Returned resp =>
      (granted <-> status resp = 200%nat) /\
      (status resp = 200%nat ->
       exists token : string,
         issueAdminToken hmac toBase64url JSON_stringify
           ADMIN_SESSION_SECRET now = Returned token /\
         cookies resp =
           [ {| name := "petar_admin_session"; value := token;
                httpOnly := true; sameSite := "strict";
                secure := production; path := "/"; maxAge := 31536000 |} ] /\
         maxAge {| name := "petar_admin_session"; value := token;
                   httpOnly := true; sameSite := "strict";
                   secure := production; path := "/"; maxAge := 31536000 |}
           * 1000 = SESSION_TTL_MS) /\
      (status resp <> 200%nat ->
       cookies resp = [] /\
       (status resp = 400 \/ status resp = 401 \/ status resp = 500)%nat)
  end.
Proof.
  intros granted. unfold POST, granted.
  destruct json as [password|].
  { destruct ADMIN_PASSWORD as [[|rc required]|]; cbn [getPassword].
    - cbn [status cookies]. split; [|split].
      + split; [intros (pw & H1 & H2 & H3) | discriminate].
        injection H3 as <-. tauto.
      + discriminate.
      + intros _. split; [reflexivity | now right; right].
    - destruct password as [[|c rest]|].
      + cbn [status cookies]. split; [|split].
        * split; [intros (pw & H1 & H2 & H3) | discriminate].
          injection H1 as <-. tauto.
        * discriminate.
        * intros _. split; [reflexivity | now right; left].
      + destruct (String.eqb (String c rest) (String rc required)) eqn:Heq.
        * apply String.eqb_eq in Heq.
          destruct (issueAdminToken hmac toBase64url JSON_stringify
                      ADMIN_SESSION_SECRET now) as [|token] eqn:Hissue.
          -- split.
             ++ exists (String c rest).
                repeat split; [discriminate | now rewrite Heq].
             ++ unfold issueAdminToken in Hissue.
                destruct (getSecret ADMIN_SESSION_SECRET);
                  [reflexivity | discriminate].
          -- cbn [status cookies]. split; [|split].
             ++ split; [reflexivity|]. intros _. exists (String c rest).
                repeat split; [discriminate | now rewrite Heq].
             ++ intros _. exists token. split; [reflexivity|].
                rewrite sessionMaxAgeSeconds_value.
                split; [reflexivity|]. cbn [maxAge].
                unfold SESSION_TTL_MS. lra.
             ++ intros H. now elim H.
        * apply String.eqb_neq in Heq. cbn [status cookies].
          split; [|split].
          -- split; [intros (pw & H1 & H2 & H3) | discriminate].
             injection H1 as <-. injection H3 as H3. congruence.
          -- discriminate.
          -- intros _. split; [reflexivity | now right; left].
      + cbn [status cookies]. split; [|split].
        * split; [intros (pw & H1 & H2 & H3) | discriminate].
          discriminate H1.
        * discriminate.
        * intros _. split; [reflexivity | now right; left].
    - cbn [status cookies]. split; [|split].
      + split; [intros (pw & H1 & H2 & H3) | discriminate].
        discriminate H3.
      + discriminate.
      + intros _. split; [reflexivity | now right; right]. }
  cbn [status cookies]. split; [|split].
  - split; [intros (pw & H1 & H2 & H3) | discriminate]. discriminate H1.
  - discriminate.
  - intros _. split; [reflexivity | now left].
Qed.

End Session.

Section SessionExamples.

Import Auth.

Local Open Scope string_scope.

Lemma issued_token_valid_until_expiry_witness :
  exists token : string,
    issueAdminToken (fun k d => k ++ d) (fun s => s)
      (fun _ => "session") (Some "key") 0 = Returned token /\
    (validateAdminToken (fun k d => k ++ d) (fun s => s)
       (fun _ => Some (adminSession (0 + SESSION_TTL_MS))) (Some "key") 1
       (Some token) = true
     <-> 1 <= 0 + SESSION_TTL_MS).
Proof.
  apply (issued_token_valid_until_expiry (fun k d => k ++ d) (fun s => s)
           (fun s => s) (fun _ => "session")
           (fun _ => Some (adminSession (0 + SESSION_TTL_MS))) "key" 0 1).
  - discriminate.
  - discriminate.
  - cbn. repeat split; discriminate.
  - discriminate.
  - cbn. repeat split; discriminate.
  - reflexivity.
Defined.

Lemma validateAdminToken_sound_witness :
  exists (secret t payload sig : string) (rest : list string)
         (session : Json) (exp : number),
    Some "key" = Some secret /\ secret <> "" /\
    Some "session.keysession" = Some t /\
    split_dot t = payload :: sig :: rest /\
    payload <> "" /\
    sig = secret ++ payload /\
    Some (adminSession 10) = Some session /\
    prop "role" session = Returned (Some (JString "admin")) /\
    prop "exp" session = Returned (Some (JNumber (Some exp))) /\
    1 <= exp.
Proof.
  apply (validateAdminToken_sound (fun k d => k ++ d) (fun s => s)
           (fun _ => Some (adminSession 10)) (Some "key") 1
           (Some "session.keysession")).
  unfold validateAdminToken, decode, readSession. cbn.
  destruct (Rlt_dec 10 1); [lra | reflexivity].
Defined.

End SessionExamples.

(** ** The progress bar of the now-playing panel *)

Section ProgressBar.

Import NowPlaying.

(** X24.  For a track that is playing, with a progress that is not
    negative, a duration that is positive and a last update that is a date
    not after the present time: the derived progress is defined, lies
    between the reported progress and the duration (when the reported
    progress does not exceed it), and the width of the progress bar is that
    share of the duration in percent, between 0 and 100. *)
Theorem progressPercent_playing (now1 now2 : number)
    (getTime : string -> option number) (data : NowPlayingResponse)
    (s : string) (t progress duration : number) :
  isPlaying data = true ->
  lastUpdated data = Some s -> s <> ""%string -> getTime s = Some t ->
  t <= now2 ->
  progressMs data = Some progress -> durationMs data = Some duration ->
  0 <= progress <= duration -> 0 < duration ->
  exists derived percent : number,
    derivedProgressMs now1 now2 getTime (Some data) = Some derived /\
    progress <= derived <= duration /\
    progressPercent (Some derived) (Some data) = Some percent /\
    percent = derived / duration * 100 /\
    0 <= percent <= 100.
Proof.
  intros Hplay Hlast Hs Ht Hclock Hprog Hdur Hrange Hpos.
  assert (Hd : derivedProgressMs now1 now2 getTime (Some data)
               = Some (Rmin duration (progress + (now2 - t)))).
  { unfold derivedProgressMs. rewrite Hplay, Hlast, Hprog, Hdur.
    cbn [negb orElse]. destruct s; [tauto|]. rewrite Ht. reflexivity. }
  set (derived := Rmin duration (progress + (now2 - t))) in *.
  assert (Hder : progress <= derived <= duration).
  { unfold derived. split; [apply Rmin_glb; lra | apply Rmin_l]. }
  assert (Hinv : 0 < / duration) by now apply Rinv_0_lt_compat.
  assert (Hq : 0 <= derived / duration <= 1).
  { unfold Rdiv. split.
    - apply Rmult_le_pos; lra.
    - apply Rmult_le_reg_r with duration; [exact Hpos|].
      rewrite Rmult_assoc, Rinv_l by lra. lra. }
  exists derived, (derived / duration * 100).
  split; [exact Hd|]. split; [exact Hder|].
  split; [|split; [reflexivity | lra]].
  unfold progressPercent. rewrite Hdur.
  destruct (Req_dec_T duration 0); [lra|].
  destruct (Rlt_dec 0 duration); [|lra].
  cbn [bind]. rewrite div_some by assumption. cbn [bind ret].
  unfold ret. f_equal. apply Rmin_right. lra.
Qed.

Lemma progressPercent_playing_witness :
  exists derived percent : number,
    derivedProgressMs 5000 5000 (fun _ => Some 1000)
      (Some (mkNowPlayingResponse true None None None None None
               (Some 200000) (Some 60000) (Some "2026-01-01"%string)
               None None)) = Some derived /\
    60000 <= derived <= 200000 /\
    progressPercent (Some derived)
      (Some (mkNowPlayingResponse true None None None None None
               (Some 200000) (Some 60000) (Some "2026-01-01"%string)
               None None)) = Some percent /\
    percent = derived / 200000 * 100 /\
    0 <= percent <= 100.
Proof.
  apply (progressPercent_playing 5000 5000 (fun _ => Some 1000)
           (mkNowPlayingResponse true None None None None None
              (Some 200000) (Some 60000) (Some "2026-01-01"%string)
              None None)
           "2026-01-01"%string 1000 60000 200000);
    try reflexivity; try discriminate; lra.
Defined.

(** The bar never passes 100 percent, and its width is computed without a
    division by zero, whatever the state. *)
Lemma progressPercent_defined (derived : number)
    (data : option NowPlayingResponse) :
  exists percent : number,
    progressPercent (Some derived) data = Some percent /\ percent <= 100.
Proof.
  unfold progressPercent. destruct data as [data|]; [|exists 0; split; [reflexivity | lra]].
  destruct (durationMs data) as [duration|];
    [|exists 0; split; [reflexivity | lra]].
  destruct (Req_dec_T duration 0); [exists 0; split; [reflexivity | lra]|].
  destruct (Rlt_dec 0 duration); [|exists 0; split; [reflexivity | lra]].
  cbn [bind]. rewrite div_some by lra. cbn [bind ret].
  eexists. split; [reflexivity | apply Rmin_l].
Qed.

End ProgressBar.

(** ** The scene with a fixed view *)

Section FixedView.

(** X25.  In the scene with a fixed view the target altitude of the zoom
    effect is [FAR_ALTITUDE] = 1.2 at progress 0 and below, [CLOSE_ALTITUDE]
    = 0.6 at progress 1 and above, stays between the two, and does not
    increase with the progress. *)
Theorem fixed_targetAltitude_range (zoomProgress : number) :
  GlobeSceneFixed.CLOSE_ALTITUDE
    <= GlobeSceneFixed.targetAltitude zoomProgress
    <= GlobeSceneFixed.FAR_ALTITUDE /\
  (zoomProgress <= 0 ->
   GlobeSceneFixed.targetAltitude zoomProgress = GlobeSceneFixed.FAR_ALTITUDE)
  /\
  (1 <= zoomProgress ->
   GlobeSceneFixed.targetAltitude zoomProgress
   = GlobeSceneFixed.CLOSE_ALTITUDE) /\
  (forall further : number,
      zoomProgress <= further ->
      GlobeSceneFixed.targetAltitude further
      <= GlobeSceneFixed.targetAltitude zoomProgress).
Proof.
  unfold GlobeSceneFixed.targetAltitude, GlobeSceneFixed.FAR_ALTITUDE,
    GlobeSceneFixed.CLOSE_ALTITUDE.
  assert (Hc : forall v : number, 0 <= Rmin (Rmax v 0) 1 <= 1).
  { intros v. split; [|apply Rmin_r]. apply Rmin_glb; [apply Rmax_r | lra]. }
  pose proof (Hc zoomProgress) as Hz.
  split; [lra|]. split; [|split].
  - intros H. rewrite Rmax_right by lra. rewrite Rmin_left by lra. lra.
  - intros H. rewrite Rmax_left by lra. rewrite Rmin_right by lra. lra.
  - intros further Hf.
    assert (Rmin (Rmax zoomProgress 0) 1 <= Rmin (Rmax further 0) 1).
    { apply Rle_min_compat_r. now apply Rle_max_compat_r. }
    lra.
Qed.

End FixedView.

(** ** Two antipodal points and the value of [Math.PI] *)

Section AntipodalMathPI.




Section BelowPI.

(** A value of [Math.PI] strictly between 0 and PI. *)
Variable p : number.
Hypothesis p_range : 0 < p < PI.

Let c : R := cos (p / 2).
Let s : R := sin (p / 2).









End BelowPI.



End AntipodalMathPI.
